(** * adv.go: the state-management core of the text adventure

    A shallow embedding of [src/adv.go].  The program's globals
    ([npcData], [playerState], [history], ...) and the parts of the outside
    world it talks to (standard input, the chat API, the random generator,
    the save file) are the fields of one record, [World]; every function of
    the source that touches them becomes a function on [World].

    Conventions.
    - A Go [string] is a sequence of bytes: Rocq's [string].  The functions
      of Go's [strings] package are modelled on their ASCII behaviour: the
      white space of [TrimSpace] and [Fields] is tab, line feed, vertical
      tab, form feed, carriage return and space, and [ToUpper]/[ToLower]
      change the letters A-Z/a-z only.  Every concrete input used below is
      ASCII, where this is exactly what Go does.
    - A Go [int] is a 64-bit two's complement integer: [Z] with [wrap64]
      written where the source adds or subtracts.
    - A Go [map] is a [gmap]; a slice is a [list].
    - What the program prints is not part of the state; [roll], whose only
      effect is what it prints, returns it.
    - The program is run with OPENAI_API_KEY set (without it [main] exits
      before anything else happens), and the save file, when there is one,
      was written by the program. *)

From Stdlib Require Import ZArith Ascii String.
From stdpp Require Import gmap strings list fin_maps sorting.

Local Open Scope string_scope.
Local Open Scope list_scope.

(** ** Go's [strings] package *)

Module GoStrings.

Definition isSpace (c : ascii) : bool :=
  let n := nat_of_ascii c in
  ((9 <=? n)%nat && (n <=? 13)%nat) || (n =? 32)%nat.

Definition isUpper (c : ascii) : bool :=
  let n := nat_of_ascii c in (65 <=? n)%nat && (n <=? 90)%nat.

Definition isLower (c : ascii) : bool :=
  let n := nat_of_ascii c in (97 <=? n)%nat && (n <=? 122)%nat.

Definition toLowerChar (c : ascii) : ascii :=
  if isUpper c then ascii_of_nat (nat_of_ascii c + 32) else c.

Definition toUpperChar (c : ascii) : ascii :=
  if isLower c then ascii_of_nat (nat_of_ascii c - 32) else c.

Fixpoint mapS (f : ascii -> ascii) (s : string) : string :=
  match s with
  | EmptyString => EmptyString
  | String c r => String (f c) (mapS f r)
  end.

Definition ToLower : string -> string := mapS toLowerChar.
Definition ToUpper : string -> string := mapS toUpperChar.

(** [strings.HasPrefix(s, p)] *)
Definition HasPrefix (s p : string) : bool := String.prefix p s.

Fixpoint trimLeftBy (f : ascii -> bool) (s : string) : string :=
  match s with
  | EmptyString => EmptyString
  | String c r => if f c then trimLeftBy f r else s
  end.

Fixpoint trimRightBy (f : ascii -> bool) (s : string) : string :=
  match s with
  | EmptyString => EmptyString
  | String c r =>
      match trimRightBy f r with
      | EmptyString => if f c then EmptyString else String c EmptyString
      | r' => String c r'
      end
  end.

Definition TrimSpace (s : string) : string :=
  trimRightBy isSpace (trimLeftBy isSpace s).

Fixpoint inCutset (cutset : string) (c : ascii) : bool :=
  match cutset with
  | EmptyString => false
  | String d r => if decide (c = d) then true else inCutset r c
  end.

(** [strings.Trim(s, cutset)]: both ends. *)
Definition Trim (s cutset : string) : string :=
  trimRightBy (inCutset cutset) (trimLeftBy (inCutset cutset) s).

(** [strings.TrimRight(s, cutset)]; the source never calls it, the
    specification's reading of [listItems] does. *)
Definition TrimRight (s cutset : string) : string :=
  trimRightBy (inCutset cutset) s.

(** [strings.Split(s, sep)] for a one-byte separator.  The result is never
    empty: [Split("", ",")] is one empty string. *)
Fixpoint Split (s : string) (sep : ascii) : list string :=
  match s with
  | EmptyString => [EmptyString]
  | String c r =>
      if decide (c = sep) then EmptyString :: Split r sep
      else match Split r sep with
           | h :: t => String c h :: t
           | [] => [String c EmptyString]
           end
  end.

(** [strings.Fields(s)]: the maximal runs of non-space bytes. *)
Fixpoint Fields (s : string) : list string :=
  match s with
  | EmptyString => []
  | String c r =>
      if isSpace c then Fields r
      else match r with
           | EmptyString => [String c EmptyString]
           | String d _ =>
               if isSpace d then String c EmptyString :: Fields r
               else match Fields r with
                    | h :: t => String c h :: t
                    | [] => [String c EmptyString]
                    end
           end
  end.

(** [strings.Join(l, sep)] *)
Fixpoint Join (l : list string) (sep : string) : string :=
  match l with
  | [] => EmptyString
  | [x] => x
  | x :: r => x +:+ sep +:+ Join r sep
  end.

(** The slice expression [s[n:]].  Go panics when [n > len(s)]; every use in
    the source is guarded by a prefix test on a string of the same length
    (lemma [HasPrefix_length] below), so the model returns the empty string
    there. *)
Fixpoint sliceFrom (n : nat) (s : string) : string :=
  match n, s with
  | O, _ => s
  | S _, EmptyString => EmptyString
  | S m, String _ r => sliceFrom m r
  end.

(** [strings.ReplaceAll(s, string(c), "")] *)
Fixpoint removeByte (c : ascii) (s : string) : string :=
  match s with
  | EmptyString => EmptyString
  | String d r => if decide (d = c) then removeByte c r else String d (removeByte c r)
  end.

Definition LF : ascii := ascii_of_nat 10.
Definition CR : ascii := ascii_of_nat 13.
Definition nl : string := String LF EmptyString.
Definition dquote : string := String (ascii_of_nat 34) EmptyString.

End GoStrings.
Import GoStrings.

(** ** Go's [int] and [strconv.Atoi] *)

Definition wrap64 (z : Z) : Z := ((z + 2 ^ 63) mod 2 ^ 64 - 2 ^ 63)%Z.

Definition isInt64 (z : Z) : Prop := (- 2 ^ 63 <= z < 2 ^ 63)%Z.

Definition isDigit (c : ascii) : bool :=
  let n := nat_of_ascii c in (48 <=? n)%nat && (n <=? 57)%nat.

(** The value of a run of decimal digits, most significant first; [None] as
    soon as a byte is not a digit. *)
Fixpoint digitsValue (acc : Z) (s : string) : option Z :=
  match s with
  | EmptyString => Some acc
  | String c r =>
      if isDigit c
      then digitsValue (acc * 10 + Z.of_nat (nat_of_ascii c - 48))%Z r
      else None
  end.

(** [strconv.Atoi]: an optional sign, then at least one decimal digit and
    nothing else; a value outside the 64-bit range is an error. *)
Definition Atoi (s : string) : option Z :=
  let '(neg, body) :=
    match s with
    | String c r =>
        if decide (c = "-"%char) then (true, r)
        else if decide (c = "+"%char) then (false, r)
        else (false, s)
    | EmptyString => (false, s)
    end in
  match body with
  | EmptyString => None
  | _ =>
      match digitsValue 0 body with
      | Some v =>
          let z := if neg then (- v)%Z else v in
          if ((- 2 ^ 63 <=? z) && (z <? 2 ^ 63))%Z then Some z else None
      | None => None
      end
  end.

(** ** Data model *)

Record Message := mkMessage { Role : string; Content : string }.

Record Npc := mkNpc { Bio : string; Backstory : string; Affinity : Z }.

Record PlayerState := mkPlayerState {
  Stats : gmap string Z;
  Inventory : list string;
  Journal : list string;
  VisitedLocations : list string;
  MapGraph : gmap string (gmap string bool);
  CurrentLocation : string
}.

Record SaveData := mkSaveData {
  sdNpcData : gmap string Npc;
  sdPlayerState : PlayerState;
  sdHistory : list Message
}.

#[global] Instance Message_eq_dec : EqDecision Message.
Proof. solve_decision. Defined.

(** The program's package-level variables, followed by the four parts of
    the outside world:
    - [stdin]: the lines still to be read, each as [ReadString] returns it
      (a terminal delivers one line per read; at the end of input
      [ReadString] returns the empty string);
    - [oracleLog]: the prompts of the [callOpenAI] calls made so far;
    - [draws]: how many numbers the random generator has produced;
    - [disk]: the content of savegame.json, if the file exists.  The JSON
      encoding is not modelled: the file holds a [SaveData]. *)
Record World := mkWorld {
  npcData : gmap string Npc;
  sceneDescriptions : gmap string string;
  itemsData : gmap string string;
  playerState : PlayerState;
  history : list Message;
  pruneEnabled : bool;
  stdin : list string;
  oracleLog : list (list Message);
  draws : nat;
  disk : option SaveData
}.

Definition set_npcData (x : gmap string Npc) (w : World) : World :=
  mkWorld x (sceneDescriptions w) (itemsData w) (playerState w) (history w)
          (pruneEnabled w) (stdin w) (oracleLog w) (draws w) (disk w).
Definition set_sceneDescriptions (x : gmap string string) (w : World) : World :=
  mkWorld (npcData w) x (itemsData w) (playerState w) (history w)
          (pruneEnabled w) (stdin w) (oracleLog w) (draws w) (disk w).
Definition set_itemsData (x : gmap string string) (w : World) : World :=
  mkWorld (npcData w) (sceneDescriptions w) x (playerState w) (history w)
          (pruneEnabled w) (stdin w) (oracleLog w) (draws w) (disk w).
Definition set_playerState (x : PlayerState) (w : World) : World :=
  mkWorld (npcData w) (sceneDescriptions w) (itemsData w) x (history w)
          (pruneEnabled w) (stdin w) (oracleLog w) (draws w) (disk w).
Definition set_history (x : list Message) (w : World) : World :=
  mkWorld (npcData w) (sceneDescriptions w) (itemsData w) (playerState w) x
          (pruneEnabled w) (stdin w) (oracleLog w) (draws w) (disk w).
Definition set_pruneEnabled (x : bool) (w : World) : World :=
  mkWorld (npcData w) (sceneDescriptions w) (itemsData w) (playerState w) (history w)
          x (stdin w) (oracleLog w) (draws w) (disk w).
Definition set_stdin (x : list string) (w : World) : World :=
  mkWorld (npcData w) (sceneDescriptions w) (itemsData w) (playerState w) (history w)
          (pruneEnabled w) x (oracleLog w) (draws w) (disk w).
Definition set_oracleLog (x : list (list Message)) (w : World) : World :=
  mkWorld (npcData w) (sceneDescriptions w) (itemsData w) (playerState w) (history w)
          (pruneEnabled w) (stdin w) x (draws w) (disk w).
Definition set_draws (x : nat) (w : World) : World :=
  mkWorld (npcData w) (sceneDescriptions w) (itemsData w) (playerState w) (history w)
          (pruneEnabled w) (stdin w) (oracleLog w) x (disk w).
Definition set_disk (x : option SaveData) (w : World) : World :=
  mkWorld (npcData w) (sceneDescriptions w) (itemsData w) (playerState w) (history w)
          (pruneEnabled w) (stdin w) (oracleLog w) (draws w) x.

Definition set_Journal (x : list string) (p : PlayerState) : PlayerState :=
  mkPlayerState (Stats p) (Inventory p) x (VisitedLocations p) (MapGraph p) (CurrentLocation p).
Definition set_VisitedLocations (x : list string) (p : PlayerState) : PlayerState :=
  mkPlayerState (Stats p) (Inventory p) (Journal p) x (MapGraph p) (CurrentLocation p).
Definition set_MapGraph (x : gmap string (gmap string bool)) (p : PlayerState) : PlayerState :=
  mkPlayerState (Stats p) (Inventory p) (Journal p) (VisitedLocations p) x (CurrentLocation p).
Definition set_CurrentLocation (x : string) (p : PlayerState) : PlayerState :=
  mkPlayerState (Stats p) (Inventory p) (Journal p) (VisitedLocations p) (MapGraph p) x.

(** What one turn of a loop leads to: the loop goes round again, the program
    returns from [main], the turn never ends (the conversation loop
    spinning at the end of input), or the program stops on a run-time
    panic. *)
Inductive Flow :=
  | Next (w : World)
  | Halt (w : World)
  | Hang
  | Crash.

(** ** Constants *)

Definition summaryPrompt : string :=
  "Summarize the following adventure context in two sentences.".
Definition placeholderResponse : string :=
  "[The realm is silent; no response comes.]".

Definition SYSTEM_PROMPT : string :=
  "You are Realmweaver, the narrator and engine of an immersive, open‐ended text adventure.
Whenever you describe people in a scene, ALWAYS give them:
  1) A full name and title/role (e.g. " +:+ dquote +:+ "Selene the Librarian" +:+ dquote +:+ ").
  2) A brief backstory snippet—one or two sentences about their past, interests, or beliefs.

The world is full of towns, villages, cities, forests (deep and enchanted),
mystic ruins, markets, taverns, temples, parks, homes, and travelers.

Keep track of the player's location, the NPCs you've introduced (with consistent names),
and ensure continuity as they walk, examine, or speak with people and creatures.
When the player types commands like " +:+ dquote +:+ "go to…" +:+ dquote +:+ ", "
  +:+ dquote +:+ "examine…" +:+ dquote +:+ ", or " +:+ dquote +:+ "talk to X" +:+ dquote +:+ ",
respond with a vivid, immersive description or dialogue.
".

Definition system (c : string) : Message := mkMessage "system" c.
Definition user (c : string) : Message := mkMessage "user" c.
Definition assistant (c : string) : Message := mkMessage "assistant" c.

(** ** Pure helpers of the source *)

Definition isBlank (line : string) : bool := bool_decide (TrimSpace line = "").

Fixpoint dropBlank (lines : list string) : list string :=
  match lines with
  | l :: r => if isBlank l then dropBlank r else lines
  | [] => []
  end.

(** [normalizeText]: the two trimming loops, then the collapsing loop with
    its [blank] flag. *)
Definition normalizeText (text : string) : string :=
  let text := removeByte CR text in
  let lines := Split text LF in
  let lines := dropBlank lines in
  let lines := rev (dropBlank (rev lines)) in
  let '(out, _) :=
    fold_left (fun '(out, blank) line =>
                 if isBlank line
                 then ((if blank : bool then out else out ++ [""]), true)
                 else (out ++ [line], false))
              lines ([], false) in
  Join out nl.

(** [titleCase]: [w[0]] upper-cased, [w[1:]] lower-cased, for every field. *)
Definition titleWord (w : string) : string :=
  match w with
  | String c r => ToUpper (String c EmptyString) +:+ ToLower r
  | EmptyString => w
  end.

Definition titleCase (s : string) : string :=
  Join (map titleWord (Fields s)) " ".

Fixpoint contains (slice : list string) (s : string) : bool :=
  match slice with
  | v :: r => if decide (v = s) then true else contains r s
  | [] => false
  end.

(** The loop shared by [listItems], [listExits] and [listNpcs] over the
    comma-separated parts of the reply. *)
Definition parseList (raw : string) : list string :=
  fold_left (fun out p =>
               let name := Trim (TrimSpace p) ".!?:;" in
               if bool_decide (name <> "") && bool_decide (ToLower name <> "none")
               then out ++ [name] else out)
            (Split raw ","%char) [].

(** ** The program *)

Section Game.

(** The chat API: what it answers to a prompt, given the prompts it was sent
    before; [None] when [callOpenAI] gives up (transport or decoding failure,
    or no choice in the answer).  The random generator: its raw output. *)
Variable oracle : list (list Message) -> list Message -> option string.
Variable entropy : nat -> Z.

Definition callOpenAI (msgs : list Message) (w : World) : string * World :=
  (match oracle (oracleLog w) msgs with
   | Some content => TrimSpace content
   | None => placeholderResponse
   end,
   set_oracleLog (oracleLog w ++ [msgs]) w).

(** [rand.Intn(n)]: any number in [[0, n)]. *)
Definition Intn (n : Z) (w : World) : Z * World :=
  ((entropy (draws w) mod n)%Z, set_draws (S (draws w)) w).

(** [reader.ReadString('\n')] with the error dropped. *)
Definition readLine (w : World) : string * World :=
  match stdin w with
  | l :: r => (l, set_stdin r w)
  | [] => ("", w)
  end.

Definition pruneHistory (msgs : list Message) (w : World) : list Message * World :=
  let maxMsgs := 30%nat in
  let keepTail := 10%nat in
  if (length msgs <=? maxMsgs)%nat then (msgs, w)
  else
    let toSumm := take (length msgs - keepTail) msgs in
    let tail := drop (length msgs - keepTail) msgs in
    let prompt := [system summaryPrompt] ++ toSumm in
    let '(summary, w) := callOpenAI prompt w in
    ([system ("SUMMARY: " +:+ summary)] ++ tail, w).

Definition itemsQuery : string :=
  "List, in a comma-separated list, all objects present in this scene. If none, reply 'None'.".
Definition exitsQuery : string :=
  "List, in a comma-separated list, all exits or directions available from this scene. If none, reply 'None'.".
Definition npcsQuery : string :=
  "List, in a comma-separated list, the FULL NAMES of all NPCs currently present in this scene. If none, reply 'None'.".

Definition listItems (msgs : list Message) (w : World) : list string * World :=
  let prompt := msgs ++ [user itemsQuery] in
  let '(raw, w) := callOpenAI prompt w in
  (parseList raw, w).

Definition listExits (msgs : list Message) (w : World) : list string * World :=
  let prompt := msgs ++ [user exitsQuery] in
  let '(raw, w) := callOpenAI prompt w in
  (parseList raw, w).

Definition listNpcs (msgs : list Message) (w : World) : list string * World :=
  let prompt := msgs ++ [user npcsQuery] in
  let '(raw, w) := callOpenAI prompt w in
  (parseList raw, w).

Definition printEnvironmentSummary (msgs : list Message) (w : World) : World :=
  let '(_, w) := listExits msgs w in
  let '(_, w) := listNpcs msgs w in
  let '(_, w) := listItems msgs w in
  w.

Definition statNames : list string := ["STR"; "DEX"; "CON"; "INT"; "WIS"; "CHA"].

Definition initPlayerState (w : World) : World :=
  let '(stats, w) :=
    fold_left (fun '(stats, w) s =>
                 let '(r, w) := Intn 11 w in
                 (<[s := wrap64 (r + 8)]> stats, w))
              statNames ((∅ : gmap string Z), w) in
  set_playerState (mkPlayerState stats [] [] [] ∅ "") w.

Definition saveGame (msgs : list Message) (w : World) : World :=
  set_disk (Some (mkSaveData (npcData w) (playerState w) msgs)) w.

Definition loadGame (w : World) : option (list Message * World) :=
  match disk w with
  | Some d => Some (sdHistory d, set_playerState (sdPlayerState d) (set_npcData (sdNpcData d) w))
  | None => None
  end.

(** *** NPC personas and conversations *)

Definition personaPrompt (npcName : string) : string :=
  "You previously described an NPC named '" +:+ npcName +:+ "'." +:+ nl +:+
  "Please provide TWO clearly labeled sections:" +:+ nl +:+
  "BIO: One sentence describing who they are (name/title/role)." +:+ nl +:+
  "BACKSTORY: Two sentences about their past, interests, or beliefs." +:+ nl +:+
  "Respond exactly in this format.".

(** The loop of [startConversation] over the lines of the reply: a later
    labelled line overwrites an earlier one. *)
Definition scanPersona (summary : string) : string * string :=
  fold_left (fun '(bio, backstory) line =>
               let up := ToUpper line in
               let bio := if HasPrefix up "BIO:" then TrimSpace (sliceFrom 4 line) else bio in
               let backstory :=
                 if HasPrefix up "BACKSTORY:" then TrimSpace (sliceFrom 9 line) else backstory in
               (bio, backstory))
            (Split summary LF) ("", "").

Definition parsePersona (npcName summary : string) : Npc :=
  let '(bio, backstory) := scanPersona summary in
  let bio := if decide (bio = "") then npcName +:+ ", a person of note." else bio in
  let backstory :=
    if decide (backstory = "")
    then "They prefer to keep much of their past private." else backstory in
  mkNpc bio backstory 0.

(** The first block of [startConversation] (lines 322-351). *)
Definition ensureNpc (npcName : string) (w : World) : World :=
  match npcData w !! npcName with
  | Some _ => w
  | None =>
      let last := history w in
      let last := if (6 <? length last)%nat then drop (length last - 6) last else last in
      let prompt := last ++ [user (personaPrompt npcName)] in
      let '(summary, w) := callOpenAI prompt w in
      set_npcData (<[npcName := parsePersona npcName summary]> (npcData w)) w
  end.

Definition personaSystem (npcName : string) (info : Npc) : string :=
  "You are " +:+ npcName +:+ "." +:+ nl +:+ Bio info +:+ nl +:+
  "Backstory: " +:+ Backstory info +:+ nl +:+ nl +:+
  "Speak in first-person as yourself. ALWAYS refer to yourself by that exact name. " +:+
  "When the player says 'goodbye', 'exit', or 'bye', end the conversation politely.".

Definition isFarewell (low : string) : bool :=
  bool_decide (low = "goodbye") || bool_decide (low = "exit") || bool_decide (low = "bye").

(** The [for] loop of [startConversation], run on the lines standard input
    still holds.  [Some w]: the loop returned, with the farewell call made;
    [None]: the input ran out first, and the loop spins on empty reads. *)
Fixpoint convLoop (conv : list Message) (lines : list string) (w : World) : option World :=
  match lines with
  | [] => None
  | raw :: rest =>
      let line := TrimSpace raw in
      if decide (line = "") then convLoop conv rest w
      else
        let conv := conv ++ [user line] in
        let low := ToLower line in
        if isFarewell low then
          let '(_, w) := callOpenAI conv w in
          Some (set_stdin rest w)
        else
          let '(reply, w) := callOpenAI conv w in
          convLoop (conv ++ [assistant reply]) rest w
  end.

(** [info.Affinity++] on the record [npcData[npcName]] points to. *)
Definition bumpAffinity (info : Npc) : Npc :=
  mkNpc (Bio info) (Backstory info) (wrap64 (Affinity info + 1)).

Definition startConversation (npcName : string) (w : World) : Flow :=
  let w := ensureNpc npcName w in
  match npcData w !! npcName with
  | None => Crash
  | Some info =>
      let conv := [system (personaSystem npcName info)] in
      match convLoop conv (stdin w) w with
      | Some w => Next (set_npcData (<[npcName := bumpAffinity info]> (npcData w)) w)
      | None => Hang
      end
  end.

(** *** Stat checks *)

(** What [roll] prints: the usage line, the unknown-stat line, or
    "Rolled 1d20 + mod = total", followed by " vs DC dc: outcome" when the
    third field is an integer. *)
Inductive RollOutput :=
  | RollUsage
  | UnknownStat (stat : string)
  | Rolled (modifier total : Z) (check : option (Z * string)).

Definition doRoll (cmd : string) (w : World) : RollOutput * World :=
  let parts := Fields cmd in
  if (2 <=? length parts)%nat then
    let stat := ToUpper (nth 1 parts "") in
    match Stats (playerState w) !! stat with
    | Some val =>
        let modifier := Z.quot (wrap64 (val - 10)) 2 in
        let '(r, w) := Intn 20 w in
        let die := wrap64 (r + 1) in
        let total := wrap64 (die + modifier) in
        let check :=
          if (3 <=? length parts)%nat then
            match Atoi (nth 2 parts "") with
            | Some dc => Some (dc, if (total >=? dc)%Z then "Success" else "Failure")
            | None => None
            end
          else None in
        (Rolled modifier total check, w)
    | None => (UnknownStat stat, w)
    end
  else (RollUsage, w).

(** *** The map graph *)

(** Lines 699-706: both inner maps are created when missing, then each
    receives the other end. *)
Definition addEdge (prev dest : string) (g : gmap string (gmap string bool))
  : gmap string (gmap string bool) :=
  let g := match g !! prev with None => <[prev := ∅]> g | Some _ => g end in
  let g := match g !! dest with None => <[dest := ∅]> g | Some _ => g end in
  let g := <[prev := <[dest := true]> (default ∅ (g !! prev))]> g in
  <[dest := <[prev := true]> (default ∅ (g !! dest))]> g.

(** Lines 697-711 with [prev] as an argument; the program runs it with
    [prev := playerState.CurrentLocation]. *)
Definition moveFrom (prev dest : string) (p : PlayerState) : PlayerState :=
  let p := if decide (prev <> "") then set_MapGraph (addEdge prev dest (MapGraph p)) p else p in
  let p := set_CurrentLocation dest p in
  if contains (VisitedLocations p) dest then p
  else set_VisitedLocations (VisitedLocations p ++ [dest]) p.

(** *** The commands that call the narrator *)

Definition narrate (cmd : string) (w : World) : string * World :=
  let w := set_history (history w ++ [user cmd]) w in
  let '(r, w) := callOpenAI (history w) w in
  let resp := normalizeText r in
  (resp, set_history (history w ++ [assistant resp]) w).

Definition doLook (cmd : string) (w : World) : World :=
  let '(_, w) := narrate cmd w in
  printEnvironmentSummary (history w) w.

Definition doExamine (target cmd : string) (w : World) : World :=
  let w := set_history (history w ++ [user cmd]) w in
  let '(r, w) := callOpenAI (history w) w in
  let desc := normalizeText r in
  let w := set_itemsData (<[target := desc]> (itemsData w)) w in
  let w := set_playerState
             (set_Journal (Journal (playerState w) ++ ["Examined " +:+ target +:+ "."])
                          (playerState w)) w in
  set_history (history w ++ [assistant desc]) w.

Definition doMove (dest cmd : string) (w : World) : World :=
  let prev := CurrentLocation (playerState w) in
  let w := set_playerState (moveFrom prev dest (playerState w)) w in
  let '(resp, w) := narrate cmd w in
  let w := set_sceneDescriptions (<[dest := resp]> (sceneDescriptions w)) w in
  printEnvironmentSummary (history w) w.

Definition hintPrompt (w : World) : list Message :=
  history w ++ [user ("I'm stuck at " +:+ CurrentLocation (playerState w) +:+
                      ". Please give me a hint.")].

(** The first prefix of the list that [lc] starts with (the [for ... break]
    loops of the examine and movement blocks). *)
Definition firstPrefix (lc : string) (prefs : list string) : option string :=
  List.find (fun pref => HasPrefix lc pref) prefs.

(** Lines 524-526: [if pruneEnabled { history = pruneHistory(history) }]. *)
Definition autoPrune (w : World) : World :=
  if pruneEnabled w
  then let '(h, w) := pruneHistory (history w) w in set_history h w
  else w.

(** *** One turn of the game loop (lines 496-727) *)

Definition step (w : World) : Flow :=
  let '(raw, w) := readLine w in
  let cmd := TrimSpace raw in
  if decide (cmd = "") then Next w else
  let lc := ToLower cmd in
  if HasPrefix lc "set prune" then
    let parts := Fields lc in
    if bool_decide (length parts = 3%nat)
       && (bool_decide (parts !! 2%nat = Some "on") || bool_decide (parts !! 2%nat = Some "off"))
    then Next (set_pruneEnabled (bool_decide (parts !! 2%nat = Some "on")) w)
    else Next w
  else
  let w := autoPrune w in
  if decide (lc ∈ ["quit"; "exit"; "stop"]) then Halt w
  else if decide (lc ∈ ["help"; "?"]) then Next w
  else if decide (lc = "inventory") then Next w
  else if decide (lc = "stats") then Next w
  else if decide (lc = "journal") then Next w
  else if decide (lc = "save") then Next (saveGame (history w) w)
  else if decide (lc = "load") then
    match loadGame w with
    | Some (h, w) => Next (set_history h w)
    | None => Next w
    end
  else if decide (lc = "hint") then
    let '(_, w) := callOpenAI (hintPrompt w) w in Next w
  else if HasPrefix lc "roll" then Next (snd (doRoll cmd w))
  else if HasPrefix lc "map" then Next w
  else if decide (lc = "talk to") then
    let '(_, w) := listNpcs (history w) w in Next w
  else if HasPrefix lc "talk to " then
    let name := TrimSpace (sliceFrom 8 cmd) in
    if decide (name = "") then Next w else startConversation name w
  else if decide (lc ∈ ["look"; "observe"; "where"]) then Next (doLook cmd w)
  else
  match firstPrefix lc ["examine "; "look at "; "inspect "] with
  | Some pref =>
      let target := TrimSpace (sliceFrom (String.length pref) cmd) in
      if decide (target = "") then Next w else Next (doExamine target cmd w)
  | None =>
  match
    match firstPrefix lc ["go to "; "move to "; "travel to "] with
    | Some pref => Some (titleCase (sliceFrom (String.length pref) cmd))
    | None =>
        if decide (lc ∈ ["north"; "south"; "east"; "west"]) then Some (titleCase lc) else None
    end
  with
  | Some dest => Next (doMove dest cmd w)
  | None => Next (snd (narrate cmd w))
  end
  end.

(** *** From process start to the game loop (lines 450-493) *)

Definition defaultStart : string := "Year 1372, in the misty Isle of Everdawn".

Definition newGame (w : World) : World :=
  let w := initPlayerState w in
  let '(raw, w) := readLine w in
  let start := TrimSpace raw in
  let start := if decide (start = "") then defaultStart else start in
  let w := set_history [system SYSTEM_PROMPT; user ("Begin the adventure: " +:+ start)] w in
  let '(r, w) := callOpenAI (history w) w in
  let intro := normalizeText r in
  let w := set_history (history w ++ [assistant intro]) w in
  let w := set_playerState (set_CurrentLocation start (playerState w)) w in
  let w := set_sceneDescriptions (<[start := intro]> (sceneDescriptions w)) w in
  set_playerState
    (set_VisitedLocations (VisitedLocations (playerState w) ++ [start]) (playerState w)) w.

Definition boot (w : World) : Flow :=
  let '(raw, w) := readLine w in
  let choice := TrimSpace raw in
  if decide (choice = "2") then
    match loadGame w with
    | Some (h, w) =>
        let w := set_history h w in
        if (length h =? 0)%nat then Next (newGame w) else Next w
    | None => Next (newGame (initPlayerState w))
    end
  else if decide (choice = "3") then Halt w
  else Next (newGame w).

(** The world when the process starts: the package-level variables at their
    initial values, around what the outside world holds. *)
Definition processStart (input : list string) (log : list (list Message))
    (n : nat) (file : option SaveData) : World :=
  mkWorld ∅ ∅ ∅ (mkPlayerState ∅ [] [] [] ∅ "") [] true input log n file.

(** The states the game loop can be in at the top of a turn.  The program
    is first started on a machine without a save file; it can be stopped
    at any time and started again, on the save file it left behind. *)
Inductive reachable : World -> Prop :=
  | reach_first input log n w :
      boot (processStart input log n None) = Next w -> reachable w
  | reach_step w w' :
      reachable w -> step w = Next w' -> reachable w'
  | reach_again w input w' :
      reachable w ->
      boot (processStart input (oracleLog w) (draws w) (disk w)) = Next w' ->
      reachable w'.

End Game.

Arguments reachable oracle entropy w : clear implicits.

(** ** Canned collaborators for concrete runs *)

(** A chat API that answers its k-th call with the k-th canned reply and
    fails once they are used up. *)
Definition cannedOracle (replies : list string)
  : list (list Message) -> list Message -> option string :=
  fun log _ => replies !! length log.

Definition constEntropy (z : Z) : nat -> Z := fun _ => z.

Section Runs.
Variable oracle : list (list Message) -> list Message -> option string.
Variable entropy : nat -> Z.

(** [n] turns of the game loop. *)
Fixpoint turns (n : nat) (w : World) : Flow :=
  match n with
  | O => Next w
  | S k =>
      match step oracle entropy w with
      | Next w' => turns k w'
      | f => f
      end
  end.

(** The program from its start on a machine without save file, through
    [n] turns. *)
Definition session (n : nat) (input : list string) : Flow :=
  match boot oracle entropy (processStart input [] 0 None) with
  | Next w => turns n w
  | f => f
  end.

End Runs.

(** *** Two readings of the list parser, to compare with [parseList] *)

Definition punctuation : string := ".!?:;".

(** A token is kept when it is not empty and not "none" in any case. *)
Definition keepName (name : string) : bool :=
  bool_decide (name <> "") && bool_decide (ToLower name <> "none").

(** White space trimmed from both ends, then punctuation from both ends. *)
Definition cleanToken (p : string) : string := Trim (TrimSpace p) punctuation.

(** White space trimmed from both ends, then punctuation from the end of
    the token only. *)
Definition cleanToken_trailing (p : string) : string :=
  TrimRight (TrimSpace p) ".,!?:;".

Definition parseList_trailing (raw : string) : list string :=
  List.filter keepName (map cleanToken_trailing (Split raw ","%char)).

(** *** Worlds and runs for the concrete cases *)

Definition seleneReply : string :=
  "BIO: Selene the Librarian." +:+ nl +:+ "BACKSTORY: She guards the old archive.".

Definition rollWorld (str : Z) : World :=
  set_playerState (mkPlayerState {[ "STR" := str ]} [] [] [] ∅ "") (processStart [] [] 0 None).

Definition worldOf (f : Flow) : World :=
  match f with
  | Next w | Halt w => w
  | _ => processStart [] [] 0 None
  end.

(** A session with one NPC: two conversations with a save in between, two
    moves, and a load at the end. *)
Definition seleneOracle : list (list Message) -> list Message -> option string :=
  cannedOracle ["A misty isle."; seleneReply; "Farewell!"].

Definition seleneInput : list string :=
  ["1"; "Everdawn"; "talk to Selene"; "hello"; "goodbye"; "save";
   "go to the old mill"; "north"; "talk to Selene"; "bye"; "load"].

Definition seleneSession (n : nat) : Flow :=
  session seleneOracle (constEntropy 1) n seleneInput.

(** Selene registered with affinity 1, and a conversation about to start. *)
Definition talkWorld : World :=
  set_stdin ["talk to Selene"; "hello"; "Goodbye"]
    (set_npcData {[ "Selene" := mkNpc "Selene the Librarian." "She guards the old archive." 1 ]}
       (processStart [] [] 0 None)).

(** Forty messages in the history, summarisation on, and a command that
    calls the narrator. *)
Definition longWorld : World :=
  set_stdin ["look"]
    (set_history (replicate 40 (user "north")) (processStart [] [] 0 None)).

(** ** The map drawing *)

(** [sort.Strings]: ascending in the order of the bytes. *)
Definition strLe (a b : string) : Prop := String.leb a b = true.

#[global] Instance strLe_dec a b : Decision (strLe a b).
Proof. unfold strLe. apply _. Defined.

Definition sortStrings (l : list string) : list string := merge_sort strLe l.

(** The keys of [MapGraph[node]], sorted (lines 395-399). *)
Definition neighbours (g : gmap string (gmap string bool)) (node : string) : list string :=
  sortStrings ((map_to_list (default ∅ (g !! node))).*1).

(** The loop over the children (lines 407-416); [rec] is the recursive
    call on one child, [n] the number of children. *)
Definition drawChildren
    (rec : string -> bool -> gset string -> list string -> option (gset string * list string))
    (n : nat)
  : list string -> nat -> gset string -> list string -> option (gset string * list string) :=
  fix loop (cs : list string) (i : nat) (visited : gset string) (out : list string) :=
    match cs with
    | [] => Some (visited, out)
    | child :: cs' =>
        match rec child (bool_decide (i = (n - 1)%nat)) visited out with
        | Some (v, o) => loop cs' (S i) v o
        | None => None
        end
    end.

(** [drawMap] on the graph [g].  The map [visited] the source passes by
    reference is threaded through the calls, [None] being the nil map of
    the first call; [out] collects the printed lines.  The recursion of the
    source is on no argument: the model runs it to the depth [fuel] and
    gives [None] when that is not enough. *)
Fixpoint drawMap (fuel : nat) (g : gmap string (gmap string bool))
    (node parent prefix : string) (isLast : bool)
    (visited : option (gset string)) (out : list string) {struct fuel}
  : option (gset string * list string) :=
  match fuel with
  | O => None
  | S fuel' =>
      let '(visited, out) :=
        match visited with
        | None => ({[node]}, out ++ [prefix +:+ node])
        | Some v =>
            let branch := if isLast then "└─ " else "├─ " in
            ({[node]} ∪ v, out ++ [prefix +:+ branch +:+ node])
        end in
      let children :=
        filter (fun c => c <> parent /\ c ∉ visited) (neighbours g node) in
      let nextPrefix := prefix +:+ (if isLast then "   " else "│  ") in
      drawChildren
        (fun child last v o => drawMap fuel' g child node nextPrefix last (Some v) o)
        (length children) children 0 visited out
  end.

(** Every name the drawing can come to: the neighbours of all nodes. *)
Definition allNeighbours (g : gmap string (gmap string bool)) : gset string :=
  ⋃ (dom <$> (map_to_list g).*2).

(** A triangle of places. *)
Definition triangle : gmap string (gmap string bool) :=
  addEdge "B" "C" (addEdge "A" "C" (addEdge "A" "B" ∅)).

(** ** Predicates on states *)

(** [b] is a neighbour of [a], as [drawMap] reads the graph: a key of the
    inner map of [a]. *)
Definition edge (g : gmap string (gmap string bool)) (a b : string) : Prop :=
  exists m, g !! a = Some m /\ is_Some (m !! b).

Definition symmetric (g : gmap string (gmap string bool)) : Prop :=
  forall a b, edge g a b -> edge g b a.

Definition located (p : PlayerState) : Prop :=
  CurrentLocation p <> "" -> CurrentLocation p ∈ VisitedLocations p.

Definition stateOK (p : PlayerState) : Prop :=
  symmetric (MapGraph p) /\ located p.

(** The invariant of the game loop: it holds of the player state in memory
    and of the one in the save file. *)
Definition Inv (w : World) : Prop :=
  stateOK (playerState w)
  /\ match disk w with Some d => stateOK (sdPlayerState d) | None => True end.

(** [w'] has the registry, the player state and the save file of [w]. *)
Definition frame (w w' : World) : Prop :=
  npcData w' = npcData w /\ playerState w' = playerState w /\ disk w' = disk w.

(** The command of the coming turn: the next input line, trimmed. *)
Definition nextCmd (w : World) : string := TrimSpace (hd "" (stdin w)).

Definition farewellLine (raw : string) : bool := isFarewell (ToLower (TrimSpace raw)).

(** What a completed conversation with [name] leaves behind, [lines] being
    the input that was left when it began. *)
Definition talked (name : string) (lines : list string) (w w' : World) : Prop :=
  playerState w' = playerState w /\ disk w' = disk w
  /\ (forall m, m <> name -> npcData w' !! m = npcData w !! m)
  /\ (exists info, npcData w' !! name = Some (bumpAffinity info)
                   /\ match npcData w !! name with
                      | Some r => info = r
                      | None => Affinity info = 0%Z
                      end)
  /\ exists pre raw post log convF,
       lines = pre ++ raw :: post
       /\ Forall (fun l => farewellLine l = false) pre
       /\ farewellLine raw = true
       /\ stdin w' = post
       /\ oracleLog w' = log ++ [convF ++ [user (TrimSpace raw)]].

(** What a turn of the game loop can do to the registry, the player state
    and the save file. *)
Inductive Effect (w w' : World) : Prop :=
  | eff_frame : frame w w' -> Effect w w'
  | eff_save h :
      ToLower (nextCmd w) = "save" ->
      npcData w' = npcData w -> playerState w' = playerState w ->
      disk w' = Some (mkSaveData (npcData w) (playerState w) h) -> Effect w w'
  | eff_load d :
      ToLower (nextCmd w) = "load" ->
      disk w = Some d ->
      npcData w' = sdNpcData d -> playerState w' = sdPlayerState d ->
      disk w' = disk w -> Effect w w'
  | eff_talk :
      HasPrefix (ToLower (nextCmd w)) "talk to " = true ->
      talked (TrimSpace (sliceFrom 8 (nextCmd w))) (tl (stdin w)) w w' -> Effect w w'
  | eff_examine j :
      npcData w' = npcData w -> disk w' = disk w ->
      playerState w' = set_Journal j (playerState w) -> Effect w w'
  | eff_move dest :
      npcData w' = npcData w -> disk w' = disk w ->
      playerState w' = moveFrom (CurrentLocation (playerState w)) dest (playerState w) ->
      Effect w w'.

(** ** Facts about the string functions *)

Fixpoint allS (f : ascii -> bool) (s : string) : bool :=
  match s with
  | EmptyString => true
  | String c r => f c && allS f r
  end.

Definition headS (s : string) : option ascii :=
  match s with String c _ => Some c | EmptyString => None end.

Fixpoint lastS (s : string) : option ascii :=
  match s with
  | EmptyString => None
  | String c EmptyString => Some c
  | String _ r => lastS r
  end.

(** ** Auxiliary notions for the proofs about text *)

(** The byte [c] does not occur in [s]. *)
Definition noByte (c : ascii) (s : string) : bool :=
  allS (fun d => bool_decide (d <> c)) s.

(** The collapsing loop of [normalizeText] as a recursive function: [blank]
    is the flag of the loop. *)
Fixpoint collapseFrom (blank : bool) (lines : list string) : list string :=
  match lines with
  | [] => []
  | l :: r =>
      if isBlank l
      then (if blank then collapseFrom true r else "" :: collapseFrom true r)
      else l :: collapseFrom false r
  end.

(** The first line of the list, if there is one, is not blank. *)
Definition headNotBlank (l : list string) : Prop :=
  match l with [] => True | x :: _ => isBlank x = false end.

(** The lines [normalizeText] joins. *)
Definition normalLines (text : string) : list string :=
  collapseFrom false
    (rev (dropBlank (rev (dropBlank (Split (removeByte CR text) LF))))).


(** What a call of [drawMap] that returns has done: [new] are the lines it
    printed, and every node it marked has a line and has all its
    neighbours marked. *)
Definition drawn (g : gmap string (gmap string bool)) (V V' : gset string)
    (new : list string) : Prop :=
  forall x, x ∈ V' -> x ∉ V ->
    (exists pre, pre +:+ x ∈ new) /\ (forall y, edge g x y -> y ∈ V').

Lemma mapS_length f s : String.length (mapS f s) = String.length s.
Proof. induction s; simpl; congruence. Qed.

Lemma prefix_length p s : String.prefix p s = true -> (String.length p <= String.length s)%nat.
Proof.
  revert s; induction p as [|c p IH]; intros [|d s]; simpl; try lia; try discriminate.
  destruct (ascii_dec c d); [|discriminate]. intros H. apply IH in H. lia.
Qed.

(** The slices [line[4:]], [line[9:]], [cmd[8:]] and [cmd[len(pref):]] are
    taken after a prefix test on the upper- or lower-cased string: they are
    in range. *)
Lemma HasPrefix_length f s p :
  HasPrefix (mapS f s) p = true -> (String.length p <= String.length s)%nat.
Proof. intros H. apply prefix_length in H. by rewrite mapS_length in H. Qed.

Lemma append_String c a b : String c a +:+ b = String c (a +:+ b).
Proof. reflexivity. Qed.

Lemma append_empty b : "" +:+ b = b.
Proof. reflexivity. Qed.

Lemma trimLeftBy_split f s :
  exists l, s = l +:+ trimLeftBy f s /\ allS f l = true
            /\ forall c, headS (trimLeftBy f s) = Some c -> f c = false.
Proof.
  induction s as [|c s (l & Hs & Hl & Hh)]; simpl.
  - exists "". split_and!; try done.
  - destruct (f c) eqn:Hc.
    + exists (String c l). simpl. rewrite Hl, Hc, append_String. split_and!; try done. by f_equal.
    + exists "". split_and!; try done. simpl. by intros d [= <-].
Qed.

Lemma trimRightBy_split f s :
  exists r, s = trimRightBy f s +:+ r /\ allS f r = true
            /\ forall c, lastS (trimRightBy f s) = Some c -> f c = false.
Proof.
  induction s as [|c s (r & Hs & Hr & Hh)]; simpl.
  - exists "". split_and!; try done.
  - destruct (trimRightBy f s) as [|d t] eqn:Ht.
    + destruct (f c) eqn:Hc.
      * exists (String c r). simpl in *. rewrite Hc, Hr. split_and!; try done.
        rewrite append_empty in *. by subst.
      * exists r. rewrite append_String, append_empty in *. simpl.
        split_and!; try done; try (by subst); by intros ? [= <-].
    + exists r. rewrite !append_String in *. split_and!; try done; try (by f_equal).
Qed.

(** [Trim] removes a run of cutset bytes from each end and stops, on either
    side, at the first byte that is not in the cutset. *)
Lemma Trim_split s cutset :
  exists l r, s = l +:+ Trim s cutset +:+ r
              /\ allS (inCutset cutset) l = true /\ allS (inCutset cutset) r = true
              /\ (forall c, headS (Trim s cutset) = Some c -> inCutset cutset c = false)
              /\ (forall c, lastS (Trim s cutset) = Some c -> inCutset cutset c = false).
Proof.
  unfold Trim.
  destruct (trimLeftBy_split (inCutset cutset) s) as (l & Hs & Hl & Hh).
  destruct (trimRightBy_split (inCutset cutset) (trimLeftBy (inCutset cutset) s))
    as (r & Hm & Hr & Hlast).
  exists l, r. split_and!; try done; [by rewrite <- Hm|].
  intros c Hc. apply Hh.
  destruct (trimLeftBy (inCutset cutset) s) as [|a t]; simpl in *; [done|].
  destruct (trimRightBy (inCutset cutset) t); [destruct (inCutset cutset a)|]; simpl in *; congruence.
Qed.

Lemma fold_left_snoc_filter {A B} (keep : B -> bool) (f : A -> B) (l : list A) (acc : list B) :
  fold_left (fun out p => if keep (f p) then out ++ [f p] else out) l acc
  = acc ++ List.filter keep (map f l).
Proof.
  revert acc; induction l as [|a l IH]; intros acc; simpl.
  - by rewrite app_nil_r.
  - rewrite IH. destruct (keep (f a)); [by rewrite <- app_assoc|done].
Qed.

(** ** Environment lists *)

Lemma parseList_filter_map raw :
  parseList raw = List.filter keepName (map cleanToken (Split raw ","%char)).
Proof.
  unfold parseList.
  rewrite <- (app_nil_l (List.filter _ _)).
  rewrite <- (fold_left_snoc_filter keepName cleanToken). reflexivity.
Qed.

(** C8, as the code has it: the reply is split on commas; each token is
    trimmed of white space and then of the punctuation . ! ? : ; at both of
    its ends (not at its end only); empty tokens and tokens equal to "none"
    in any letter case are dropped; the others are kept in order, repeats
    included.  "Sword, , Shield!, none" gives ["Sword"; "Shield"]. *)
Theorem listItems_parse oracle msgs w :
  let raw := fst (callOpenAI oracle (msgs ++ [user itemsQuery]) w) in
  fst (listItems oracle msgs w)
    = List.filter keepName (map cleanToken (Split raw ","%char))
  /\ (forall p, exists l r,
         TrimSpace p = l +:+ cleanToken p +:+ r
         /\ allS (inCutset punctuation) l = true
         /\ allS (inCutset punctuation) r = true
         /\ (forall c, headS (cleanToken p) = Some c -> inCutset punctuation c = false)
         /\ (forall c, lastS (cleanToken p) = Some c -> inCutset punctuation c = false))
  /\ parseList "Sword, , Shield!, none" = ["Sword"; "Shield"]
  /\ parseList "Rope, rope, Rope." = ["Rope"; "rope"; "Rope"]
  /\ parseList "!Sword" = ["Sword"].
Proof.
  split_and!.
  - unfold listItems. destruct (callOpenAI _ _ _) as [raw w'] eqn:E. simpl.
    apply parseList_filter_map.
  - intros p. apply Trim_split.
  - reflexivity.
  - reflexivity.
  - reflexivity.
Qed.

(** C8 as claimed, with punctuation trimmed at the end of a token only,
    fails on a token that starts with punctuation. *)
Lemma listItems_parse_not_trailing_only :
  parseList "!Sword" <> parseList_trailing "!Sword".
Proof. vm_compute. discriminate. Qed.

(** ** History compaction *)

(** C1: [pruneHistory] returns a history of at most 30 messages as it is,
    without calling the chat API; a longer one becomes 11 messages, a system
    message "SUMMARY: " followed by the reply to the one call made (the
    placeholder when the call fails), then the last 10 messages of the
    input in their order. *)
Theorem pruneHistory_compact oracle (msgs : list Message) w :
  ((length msgs <= 30)%nat -> pruneHistory oracle msgs w = (msgs, w))
  /\ ((30 < length msgs)%nat ->
      let prompt := system summaryPrompt :: take (length msgs - 10) msgs in
      let summary := match oracle (oracleLog w) prompt with
                     | Some content => TrimSpace content
                     | None => placeholderResponse
                     end in
      let r := fst (pruneHistory oracle msgs w) in
      length r = 11%nat
      /\ r !! 0%nat = Some (mkMessage "system" ("SUMMARY: " +:+ summary))
      /\ drop (length r - 10) r = drop (length msgs - 10) msgs
      /\ snd (pruneHistory oracle msgs w) = set_oracleLog (oracleLog w ++ [prompt]) w).
Proof.
  unfold pruneHistory. split; intros H.
  - destruct (Nat.leb_spec (length msgs) 30); [done|lia].
  - destruct (Nat.leb_spec (length msgs) 30); [lia|].
    cbn zeta. unfold callOpenAI. cbn [fst snd app length lookup list_lookup].
    rewrite length_drop.
    replace (S (length msgs - (length msgs - 10)) - 10)%nat with 1%nat by lia.
    split_and!; try done. lia.
Qed.

Lemma pruneHistory_compact_witness :
  let w0 := processStart [] [] 0 None in
  pruneHistory (cannedOracle ["A summary."]) [user "look"] w0 = ([user "look"], w0)
  /\ length (fst (pruneHistory (cannedOracle ["A summary."]) (replicate 31 (user "look")) w0))
     = 11%nat.
Proof.
  split.
  - apply (proj1 (pruneHistory_compact (cannedOracle ["A summary."]) [user "look"]
                    (processStart [] [] 0 None))).
    simpl. lia.
  - apply (proj2 (pruneHistory_compact (cannedOracle ["A summary."])
                    (replicate 31 (user "look")) (processStart [] [] 0 None))).
    simpl. lia.
Defined.

(** ** Integers *)

Lemma wrap64_id z : isInt64 z -> wrap64 z = z.
Proof.
  unfold isInt64, wrap64. intros H.
  rewrite Z.mod_small; lia.
Qed.

Lemma wrap64_range z : isInt64 (wrap64 z).
Proof.
  unfold isInt64, wrap64.
  pose proof (Z.mod_pos_bound (z + 2 ^ 63) (2 ^ 64) ltac:(lia)). lia.
Qed.

Lemma Intn_range entropy n w : (0 < n)%Z -> (0 <= fst (Intn entropy n w) < n)%Z.
Proof. intros H. unfold Intn. simpl. by apply Z.mod_pos_bound. Qed.

(** ** New-game attributes *)

(** C9: whatever the random generator produces, [initPlayerState] gives
    each of STR, DEX, CON, INT, WIS and CHA a value from 8 to 18. *)
Theorem initPlayerState_stats_range entropy w :
  Forall (fun s => exists v, Stats (playerState (initPlayerState entropy w)) !! s = Some v
                             /\ (8 <= v <= 18)%Z)
         ["STR"; "DEX"; "CON"; "INT"; "WIS"; "CHA"].
Proof.
  unfold initPlayerState, statNames, Intn. cbn [fold_left fst snd draws set_draws].
  cbn [playerState set_playerState Stats].
  assert (Hr : forall k, (8 <= wrap64 (entropy k mod 11 + 8) <= 18)%Z).
  { intros k. pose proof (Z.mod_pos_bound (entropy k) 11 ltac:(lia)).
    rewrite wrap64_id; [lia | unfold isInt64; lia]. }
  repeat (apply Forall_cons; split); try apply Forall_nil;
    eexists; (split; [by simplify_map_eq | apply Hr]).
Qed.

(** ** Stat checks *)

Lemma quot2_floor z : (0 <= z \/ Z.even z = true)%Z -> (Z.quot z 2 = z / 2)%Z.
Proof.
  intros [H|H].
  - by apply Z.quot_div_nonneg.
  - destruct (Z.le_gt_cases 0 z) as [Hz|Hz]; [by apply Z.quot_div_nonneg|].
    apply Z.even_spec in H as [k ->].
    rewrite (Z.mul_comm 2 k), Z.quot_mul, Z.div_mul; lia.
Qed.

Lemma quot2_odd_negative z : (z < 0)%Z -> Z.odd z = true -> (Z.quot z 2 = z / 2 + 1)%Z.
Proof.
  intros Hz H. apply Z.odd_spec in H as [k ->].
  replace (2 * k + 1)%Z with (- (2 * (- k - 1) + 1))%Z by lia.
  rewrite Z.quot_opp_l by lia.
  rewrite Z.quot_div_nonneg by lia.
  replace (- (2 * (- k - 1) + 1))%Z with (1 + k * 2)%Z by lia.
  rewrite Z.div_add by lia.
  replace (2 * (- k - 1) + 1)%Z with (1 + (- k - 1) * 2)%Z by lia.
  rewrite Z.div_add by lia.
  change (1 / 2)%Z with 0%Z. lia.
Qed.

Lemma quot2_bounds z : isInt64 z -> (- 2 ^ 62 <= Z.quot z 2 < 2 ^ 62)%Z.
Proof.
  unfold isInt64. intros H.
  destruct (Z.le_gt_cases 0 z) as [Hz|Hz].
  - rewrite Z.quot_div_nonneg by lia.
    pose proof (Z.div_pos z 2 Hz ltac:(lia)).
    assert (z / 2 < 2 ^ 62)%Z; [apply Z.div_lt_upper_bound; lia | lia].
  - replace z with (- - z)%Z by lia. rewrite Z.quot_opp_l by lia.
    rewrite Z.quot_div_nonneg by lia.
    pose proof (Z.div_pos (- z) 2 ltac:(lia) ltac:(lia)).
    assert (- z / 2 <= 2 ^ 62)%Z; [|lia].
    apply Z.div_le_upper_bound; lia.
Qed.

(** C5, as the code has it: for a stat value [v] (a 64-bit [int], not within
    10 of the smallest one) and the die [d] that [rand.Intn(20) + 1] draws,
    [roll] prints the modifier [(v - 10) / 2] of Go's integer division,
    which rounds toward zero, and the total [d + modifier].  The modifier is
    [floor((v - 10) / 2)] when [v >= 10] or [v] is even, and one more than
    that when [v] is odd and below 10.  A third field that [Atoi] reads as
    the integer [dc] adds Success when [total >= dc] and Failure
    otherwise. *)
Theorem roll_check entropy w cmd verb name rest v :
  Fields cmd = verb :: name :: rest ->
  Stats (playerState w) !! ToUpper name = Some v ->
  (- 2 ^ 63 + 10 <= v < 2 ^ 63)%Z ->
  let d := (fst (Intn entropy 20 w) + 1)%Z in
  let modifier := Z.quot (v - 10) 2 in
  let total := (d + modifier)%Z in
  (1 <= d <= 20)%Z
  /\ fst (doRoll entropy cmd w)
     = Rolled modifier total
         (match rest with
          | [] => None
          | third :: _ =>
              match Atoi third with
              | Some dc => Some (dc, if (total >=? dc)%Z then "Success" else "Failure")
              | None => None
              end
          end)
  /\ (forall third more dc, rest = third :: more -> Atoi third = Some dc ->
        exists outcome,
          fst (doRoll entropy cmd w) = Rolled modifier total (Some (dc, outcome))
          /\ (outcome = "Success" <-> (total >= dc)%Z)
          /\ (outcome = "Failure" <-> (total < dc)%Z))
  /\ ((10 <= v)%Z \/ Z.even v = true -> modifier = ((v - 10) / 2)%Z)
  /\ ((v < 10)%Z -> Z.odd v = true -> modifier = ((v - 10) / 2 + 1)%Z).
Proof.
  intros Hf Hs Hv d modifier total.
  pose proof (Intn_range entropy 20 w ltac:(lia)) as Hr.
  assert (Hd : (1 <= d <= 20)%Z) by (unfold d; lia).
  assert (Hm : (- 2 ^ 62 <= modifier < 2 ^ 62)%Z)
    by (apply quot2_bounds; unfold isInt64; lia).
  assert (Hroll : fst (doRoll entropy cmd w)
     = Rolled modifier total
         (match rest with
          | [] => None
          | third :: _ =>
              match Atoi third with
              | Some dc => Some (dc, if (total >=? dc)%Z then "Success" else "Failure")
              | None => None
              end
          end)).
  { unfold doRoll. rewrite Hf. cbn [length Nat.leb nth]. rewrite Hs.
    destruct (Intn entropy 20 w) as [r w'] eqn:E. cbn [fst snd] in *.
    rewrite (wrap64_id (v - 10)) by (unfold isInt64; lia).
    rewrite (wrap64_id (r + 1)) by (unfold isInt64; lia).
    fold d modifier.
    rewrite (wrap64_id (d + modifier)) by (unfold isInt64; lia).
    fold total. destruct rest; reflexivity. }
  split; [exact Hd|]. split; [exact Hroll|]. split; [|split].
  - intros third more dc -> Ha. rewrite Hroll, Ha.
    destruct (Z.geb_spec total dc); eexists; (split; [reflexivity|]); split; split;
      intros; try done; try lia.
  - intros H. apply quot2_floor.
    destruct H as [H|H]; [left; lia|right].
    by rewrite Z.even_sub, H.
  - intros H1 H2. apply quot2_odd_negative; [lia|].
    by rewrite Z.odd_sub, H2.
Qed.

(** STR = 14 and a die of 15: modifier +2, total 17, a success against 17. *)
Lemma roll_check_witness :
  fst (doRoll (constEntropy 14) "roll str 17" (rollWorld 14))
  = Rolled 2 17 (Some (17%Z, "Success")).
Proof.
  apply (proj1 (proj2 (roll_check (constEntropy 14) (rollWorld 14) "roll str 17"
                         "roll" "str" ["17"] 14 eq_refl eq_refl ltac:(lia)))).
Defined.

(** The same roll fails against 18. *)
Example roll_14_15_vs_18 :
  fst (doRoll (constEntropy 14) "roll str 18" (rollWorld 14))
  = Rolled 2 17 (Some (18%Z, "Failure")).
Proof. reflexivity. Qed.

(** C5 as claimed fails for STR = 9, a value [initPlayerState] gives when
    the generator draws 1: the claimed modifier is floor(-1/2) = -1, the
    program prints 0. *)
Lemma roll_modifier_not_floor :
  let w := initPlayerState (constEntropy 1) (processStart [] [] 0 None) in
  Stats (playerState w) !! "STR" = Some 9%Z
  /\ exists modifier total check,
       fst (doRoll (constEntropy 1) "roll STR" w) = Rolled modifier total check
       /\ modifier <> ((9 - 10) / 2)%Z.
Proof.
  split; [reflexivity|].
  exists 0%Z, 2%Z, None. split; [reflexivity|]. discriminate.
Qed.

(** ** NPC personas *)

Lemma scanPersona_fold_unlabelled (lines : list string) bio backstory :
  let r := fold_left (fun '(bio, backstory) line =>
               let up := ToUpper line in
               let bio := if HasPrefix up "BIO:" then TrimSpace (sliceFrom 4 line) else bio in
               let backstory :=
                 if HasPrefix up "BACKSTORY:" then TrimSpace (sliceFrom 9 line) else backstory in
               (bio, backstory)) lines (bio, backstory) in
  (Forall (fun line => HasPrefix (ToUpper line) "BIO:" = false) lines -> fst r = bio)
  /\ (Forall (fun line => HasPrefix (ToUpper line) "BACKSTORY:" = false) lines -> snd r = backstory).
Proof.
  revert bio backstory. induction lines as [|l lines IH]; intros bio backstory; cbn zeta.
  - done.
  - cbn [fold_left]. split; intros H; apply Forall_cons in H as [H1 H2]; rewrite H1.
    + by apply IH.
    + by apply IH.
Qed.

(** The fallbacks: a reply without a BIO line gives "<name>, a person of
    note.", one without a BACKSTORY line the fixed sentence. *)
Lemma parsePersona_fallbacks npcName summary :
  (Forall (fun line => HasPrefix (ToUpper line) "BIO:" = false) (Split summary LF) ->
   Bio (parsePersona npcName summary) = npcName +:+ ", a person of note.")
  /\ (Forall (fun line => HasPrefix (ToUpper line) "BACKSTORY:" = false) (Split summary LF) ->
      Backstory (parsePersona npcName summary)
      = "They prefer to keep much of their past private.").
Proof.
  unfold parsePersona, scanPersona.
  pose proof (scanPersona_fold_unlabelled (Split summary LF) "" "") as [Hb Hs].
  cbn zeta in Hb, Hs.
  destruct (fold_left _ _ _) as [bio backstory]. cbn [fst snd] in *.
  split; intros H.
  - rewrite (Hb H). reflexivity.
  - rewrite (Hs H). reflexivity.
Qed.

(** C6, at a reply in the format the prompt asks for: the BIO field is the
    rest of its line, the BACKSTORY field keeps the colon of its label,
    because the source slices the line at 9 where the label has 10 bytes. *)
Theorem ensureNpc_backstory_keeps_colon :
  npcData (ensureNpc (cannedOracle [seleneReply]) "Selene" (processStart [] [] 0 None))
    !! "Selene"
  = Some (mkNpc "Selene the Librarian." ": She guards the old archive." 0).
Proof. reflexivity. Qed.

(** C4: after [ensureNpc] the name is registered, and a second [ensureNpc]
    with the same name returns the world as it is: no prompt is added to
    the log of the chat API and the registry, with the bio and the
    backstory of the first call, is the same.  On a name that was not
    registered the first call makes exactly one call to the chat API. *)
Theorem ensureNpc_once oracle npcName w :
  let w1 := ensureNpc oracle npcName w in
  is_Some (npcData w1 !! npcName)
  /\ ensureNpc oracle npcName w1 = w1
  /\ oracleLog (ensureNpc oracle npcName w1) = oracleLog w1
  /\ npcData (ensureNpc oracle npcName w1) !! npcName = npcData w1 !! npcName
  /\ (forall info, npcData w !! npcName = Some info -> w1 = w)
  /\ (npcData w !! npcName = None ->
      exists prompt, oracleLog w1 = oracleLog w ++ [prompt]
                     /\ oracleLog (ensureNpc oracle npcName w1) = oracleLog w ++ [prompt]).
Proof.
  cbn zeta.
  assert (Hreg : is_Some (npcData (ensureNpc oracle npcName w) !! npcName)).
  { unfold ensureNpc. destruct (npcData w !! npcName) eqn:E; [by rewrite E|].
    unfold callOpenAI. cbn. rewrite lookup_insert_eq. eauto. }
  assert (Hid : ensureNpc oracle npcName (ensureNpc oracle npcName w)
                = ensureNpc oracle npcName w).
  { destruct Hreg as [info Hreg]. unfold ensureNpc at 1. by rewrite Hreg. }
  split_and!; try done; try (by rewrite Hid).
  - intros info H. unfold ensureNpc. by rewrite H.
  - intros H. rewrite Hid. unfold ensureNpc. rewrite H. unfold callOpenAI. cbn. eauto.
Qed.

Lemma ensureNpc_once_witness :
  exists prompt,
    oracleLog (ensureNpc (cannedOracle [seleneReply]) "Selene" (processStart [] [] 0 None))
      = [] ++ [prompt]
    /\ oracleLog (ensureNpc (cannedOracle [seleneReply]) "Selene"
                   (ensureNpc (cannedOracle [seleneReply]) "Selene"
                      (processStart [] [] 0 None)))
       = [] ++ [prompt].
Proof.
  apply (proj2 (proj2 (proj2 (proj2 (proj2
           (ensureNpc_once (cannedOracle [seleneReply]) "Selene"
              (processStart [] [] 0 None))))))).
  reflexivity.
Defined.

(** ** Blank input lines *)

Lemma set_stdin_same (w : World) : set_stdin (stdin w) w = w.
Proof. by destruct w. Qed.

(** C10: a line that is empty once trimmed does nothing but get consumed.
    In the game loop the turn ends in the world it started in, one input
    line shorter: no call to the chat API, the history, the registry, the
    player state and the save file as they were.  In a conversation the
    loop goes on with the same messages in the same world. *)
Theorem blank_line_noop oracle entropy w raw rest conv :
  TrimSpace raw = "" ->
  (stdin w = raw :: rest -> step oracle entropy w = Next (set_stdin rest w))
  /\ convLoop oracle conv (raw :: rest) w = convLoop oracle conv rest w.
Proof.
  intros H. split.
  - intros Hin. unfold step, readLine. rewrite Hin. rewrite H. reflexivity.
  - cbn [convLoop]. rewrite H. reflexivity.
Qed.

Lemma blank_line_noop_witness :
  let w := set_stdin ["  " +:+ nl; "look"] (processStart [] [] 0 None) in
  step (cannedOracle []) (constEntropy 0) w = Next (set_stdin ["look"] w)
  /\ convLoop (cannedOracle []) [system "You are Selene."] ["  " +:+ nl; "bye"] w
     = convLoop (cannedOracle []) [system "You are Selene."] ["bye"] w.
Proof.
  split.
  - apply (proj1 (blank_line_noop (cannedOracle []) (constEntropy 0)
                    (set_stdin ["  " +:+ nl; "look"] (processStart [] [] 0 None))
                    ("  " +:+ nl) ["look"] [] eq_refl)).
    reflexivity.
  - apply (proj2 (blank_line_noop (cannedOracle []) (constEntropy 0)
                    (set_stdin ["  " +:+ nl; "look"] (processStart [] [] 0 None))
                    ("  " +:+ nl) ["bye"] [system "You are Selene."] eq_refl)).
Defined.

(** ** What a turn changes *)

Lemma frame_refl w : frame w w.
Proof. by unfold frame. Qed.

Lemma frame_trans w1 w2 w3 : frame w1 w2 -> frame w2 w3 -> frame w1 w3.
Proof. unfold frame. intros (-> & -> & ->) (-> & -> & ->). done. Qed.

Lemma pruneHistory_frame oracle msgs w :
  frame w (snd (pruneHistory oracle msgs w))
  /\ stdin (snd (pruneHistory oracle msgs w)) = stdin w.
Proof.
  unfold pruneHistory, frame. destruct (length msgs <=? 30)%nat; cbn; done.
Qed.

Lemma autoPrune_frame oracle w :
  frame w (autoPrune oracle w) /\ stdin (autoPrune oracle w) = stdin w.
Proof.
  unfold autoPrune. destruct (pruneEnabled w); [|by split; [apply frame_refl|]].
  pose proof (pruneHistory_frame oracle (history w) w) as [Hf Hs].
  destruct (pruneHistory oracle (history w) w) as [h w1]. cbn [snd] in *.
  unfold frame in *. cbn. done.
Qed.

Lemma parsePersona_affinity npcName summary : Affinity (parsePersona npcName summary) = 0%Z.
Proof. unfold parsePersona. by destruct (scanPersona summary). Qed.

Lemma ensureNpc_effect oracle npcName w :
  let w1 := ensureNpc oracle npcName w in
  playerState w1 = playerState w /\ disk w1 = disk w /\ stdin w1 = stdin w
  /\ history w1 = history w
  /\ (forall m, m <> npcName -> npcData w1 !! m = npcData w !! m)
  /\ exists info, npcData w1 !! npcName = Some info
                  /\ match npcData w !! npcName with
                     | Some r => info = r
                     | None => Affinity info = 0%Z
                     end.
Proof.
  cbn zeta. unfold ensureNpc. destruct (npcData w !! npcName) as [r|] eqn:E.
  - split_and!; try done. exists r. by rewrite E.
  - unfold callOpenAI. cbn. split_and!; try done.
    + intros m Hm. by rewrite lookup_insert_ne.
    + eexists. rewrite lookup_insert_eq. split; [reflexivity|].
      apply parsePersona_affinity.
Qed.

Lemma farewellLine_blank raw : TrimSpace raw = "" -> farewellLine raw = false.
Proof. unfold farewellLine. by intros ->. Qed.

(** The conversation loop returns exactly at the first line that is a
    farewell; until then it changes nothing but the log of the chat API, and
    its last call is the one that follows the farewell line. *)
Lemma convLoop_returns oracle lines : forall conv w w',
  convLoop oracle conv lines w = Some w' ->
  npcData w' = npcData w /\ playerState w' = playerState w /\ disk w' = disk w
  /\ history w' = history w
  /\ exists pre raw post log convF,
       lines = pre ++ raw :: post
       /\ Forall (fun l => farewellLine l = false) pre
       /\ farewellLine raw = true
       /\ stdin w' = post
       /\ oracleLog w' = log ++ [convF ++ [user (TrimSpace raw)]].
Proof.
  induction lines as [|raw rest IH]; intros conv w w' H; [discriminate|].
  cbn [convLoop] in H. destruct (decide (TrimSpace raw = "")) as [Hb|Hb].
  - apply IH in H as (? & ? & ? & ? & pre & r & post & log & convF & -> & Hp & ? & ? & ?).
    split_and!; try done.
    exists (raw :: pre), r, post, log, convF. split_and!; try done.
    apply Forall_cons. split; [by apply farewellLine_blank|done].
  - destruct (isFarewell (ToLower (TrimSpace raw))) eqn:Hf.
    + unfold callOpenAI in H. cbn in H. injection H as <-. cbn.
      split_and!; try done.
      exists [], raw, rest, (oracleLog w), conv. split_and!; try done.
    + unfold callOpenAI in H. cbn [fst snd] in H.
      apply IH in H as (? & ? & ? & ? & pre & r & post & log & convF & -> & Hp & ? & ? & ?).
      cbn in *. split_and!; try done.
      exists (raw :: pre), r, post, log, convF. split_and!; try done.
      apply Forall_cons. split; done.
Qed.

Lemma convLoop_completes oracle pre raw post : forall conv w,
  Forall (fun l => farewellLine l = false) pre ->
  farewellLine raw = true ->
  exists w' log convF,
    convLoop oracle conv (pre ++ raw :: post) w = Some w'
    /\ stdin w' = post
    /\ oracleLog w' = log ++ [convF ++ [user (TrimSpace raw)]]
    /\ npcData w' = npcData w.
Proof.
  induction pre as [|l pre IH]; intros conv w Hp Hr.
  - cbn [app convLoop]. destruct (decide (TrimSpace raw = "")) as [Hb|Hb].
    + apply farewellLine_blank in Hb. congruence.
    + unfold farewellLine in Hr. rewrite Hr. unfold callOpenAI. cbn.
      eexists _, _, _. split_and!; reflexivity.
  - apply Forall_cons in Hp as [Hl Hp]. cbn [app convLoop].
    destruct (decide (TrimSpace l = "")); [by apply IH|].
    unfold farewellLine in Hl. rewrite Hl. unfold callOpenAI. cbn [fst snd].
    edestruct IH as (w' & log & convF & -> & ? & ? & ?); [done..|].
    eexists _, _, _. split_and!; try done.
Qed.

(** The input runs out before a farewell: the loop never returns. *)
Lemma convLoop_starves oracle lines : forall conv w,
  Forall (fun l => farewellLine l = false) lines ->
  convLoop oracle conv lines w = None.
Proof.
  induction lines as [|l lines IH]; intros conv w H; [done|].
  apply Forall_cons in H as [Hl H]. cbn [convLoop].
  destruct (decide (TrimSpace l = "")); [by apply IH|].
  unfold farewellLine in Hl. rewrite Hl. unfold callOpenAI. cbn [fst snd]. by apply IH.
Qed.

Lemma startConversation_effect oracle npcName w w' :
  startConversation oracle npcName w = Next w' ->
  talked npcName (stdin w) w w'.
Proof.
  unfold startConversation, talked.
  pose proof (ensureNpc_effect oracle npcName w) as (Hp & Hd & Hs & Hh & Hothers & info & Hi & Hold).
  cbn zeta in *. rewrite Hi. rewrite Hs.
  destruct (convLoop oracle _ (stdin w) (ensureNpc oracle npcName w)) as [w2|] eqn:E;
    [|discriminate].
  intros [= <-]. apply convLoop_returns in E as (Hn2 & Hp2 & Hd2 & _ & Hconv).
  cbn. split_and!; try congruence.
  - intros m Hm. rewrite lookup_insert_ne by done. rewrite Hn2. by apply Hothers.
  - exists info. by rewrite lookup_insert_eq.
Qed.

Lemma step_effect oracle entropy w w' :
  step oracle entropy w = Next w' -> Effect w w'.
Proof.
  unfold step, readLine, nextCmd.
  destruct (stdin w) as [|raw rest] eqn:Hin.
  { cbn. intros [= <-]. apply eff_frame, frame_refl. }
  cbn zeta. destruct (decide (TrimSpace raw = "")) as [|Hne].
  { intros [= <-]. by apply eff_frame. }
  assert (Hcmd : nextCmd w = TrimSpace raw) by (unfold nextCmd; by rewrite Hin).
  destruct (HasPrefix (ToLower (TrimSpace raw)) "set prune").
  { destruct (_ && _); intros [= <-]; by apply eff_frame. }
  pose proof (autoPrune_frame oracle (set_stdin rest w)) as [(Hn & Hp & Hd) Hs].
  cbn in Hn, Hp, Hd, Hs.
  set (w1 := autoPrune oracle (set_stdin rest w)) in *.
  destruct (decide (_ ∈ ["quit"; "exit"; "stop"])); [discriminate|].
  destruct (decide (_ ∈ ["help"; "?"])); [intros [= <-]; by apply eff_frame|].
  destruct (decide (_ = "inventory")); [intros [= <-]; by apply eff_frame|].
  destruct (decide (_ = "stats")); [intros [= <-]; by apply eff_frame|].
  destruct (decide (_ = "journal")); [intros [= <-]; by apply eff_frame|].
  destruct (decide (_ = "save")).
  { intros [= <-]. apply (eff_save _ _ (history w1)); cbn; try congruence. }
  destruct (decide (_ = "load")).
  { unfold loadGame. destruct (disk w1) as [d|] eqn:Ed.
    - intros [= <-]. apply (eff_load _ _ d); cbn; congruence.
    - intros [= <-]. apply eff_frame. unfold frame. split_and!; congruence. }
  destruct (decide (_ = "hint")).
  { unfold callOpenAI. cbn. intros [= <-]. by apply eff_frame. }
  destruct (HasPrefix _ "roll").
  { intros [= <-]. apply eff_frame. unfold doRoll, Intn, frame.
    repeat case_match; cbn; done. }
  destruct (HasPrefix _ "map"); [intros [= <-]; by apply eff_frame|].
  destruct (decide (_ = "talk to")).
  { unfold listNpcs, callOpenAI. cbn. intros [= <-]. by apply eff_frame. }
  destruct (HasPrefix _ "talk to ") eqn:Htalk.
  { destruct (decide (_ = "")); [intros [= <-]; by apply eff_frame|].
    intros H. apply startConversation_effect in H. apply eff_talk.
    - by rewrite Hcmd.
    - rewrite Hcmd, Hin. cbn [tl]. rewrite Hs in H.
      unfold talked in *. rewrite Hp, Hd, Hn in H. done. }
  destruct (decide (_ ∈ ["look"; "observe"; "where"])).
  { intros [= <-]. by apply eff_frame. }
  destruct (firstPrefix _ ["examine "; "look at "; "inspect "]).
  { destruct (decide (_ = "")); intros [= <-]; [by apply eff_frame|].
    eapply eff_examine; cbn; try done. by rewrite Hp. }
  match goal with |- match ?x with _ => _ end = _ -> _ => destruct x as [dest|] end.
  - intros [= <-]. apply (eff_move _ _ dest); cbn; try done. by rewrite Hp.
  - intros [= <-]. by apply eff_frame.
Qed.

(** ** The map graph *)

Lemma addEdge_lookup (a b x : string) (g : gmap string (gmap string bool)) :
  addEdge a b g !! x
  = if decide (x = b)
    then Some (<[a := true]>
                 (if decide (a = b) then <[b := true]> (default ∅ (g !! a))
                  else default ∅ (g !! b)))
    else if decide (x = a) then Some (<[b := true]> (default ∅ (g !! a)))
    else g !! x.
Proof.
  unfold addEdge.
  destruct (g !! a) eqn:Ea; destruct (g !! b) eqn:Eb;
    destruct (decide (a = b)) as [Hab|Hab];
    destruct (decide (x = b)) as [Hxb|Hxb];
    destruct (decide (x = a)) as [Hxa|Hxa];
    by simplify_map_eq.
Qed.

Lemma addEdge_prev (a b : string) (g : gmap string (gmap string bool)) :
  exists m, addEdge a b g !! a = Some m /\ m !! b = Some true.
Proof.
  rewrite addEdge_lookup.
  destruct (decide (a = b)) as [->|Hab].
  - eexists; split; [reflexivity|]. by rewrite lookup_insert_eq.
  - rewrite decide_True by done. eexists; split; [reflexivity|].
    by rewrite lookup_insert_eq.
Qed.

Lemma addEdge_dest (a b : string) (g : gmap string (gmap string bool)) :
  exists m, addEdge a b g !! b = Some m /\ m !! a = Some true.
Proof.
  rewrite addEdge_lookup. rewrite decide_True by done.
  eexists; split; [reflexivity|]. by rewrite lookup_insert_eq.
Qed.

Lemma addEdge_present (a b : string) (g : gmap string (gmap string bool)) ma mb :
  g !! a = Some ma -> ma !! b = Some true ->
  g !! b = Some mb -> mb !! a = Some true ->
  addEdge a b g = g.
Proof.
  intros Ha Hab Hb Hba. unfold addEdge. rewrite Ha, Hb. cbn [default].
  rewrite Ha. cbn [default]. rewrite (insert_id ma) by done.
  rewrite (insert_id g a) by done. rewrite Hb. cbn [default].
  rewrite (insert_id mb) by done. by rewrite insert_id.
Qed.

Lemma addEdge_idempotent (a b : string) (g : gmap string (gmap string bool)) :
  addEdge a b (addEdge a b g) = addEdge a b g.
Proof.
  destruct (addEdge_prev a b g) as (ma & Ha & Hab).
  destruct (addEdge_dest a b g) as (mb & Hb & Hba).
  by eapply addEdge_present.
Qed.

Lemma edge_default (g : gmap string (gmap string bool)) (x y : string) :
  edge g x y <-> is_Some (default ∅ (g !! x) !! y).
Proof.
  unfold edge. destruct (g !! x) as [m|]; cbn [default].
  - split; [by intros (? & [= <-] & ?)|eauto].
  - rewrite lookup_empty. split; [by intros (? & ? & ?)|by intros [? ?]].
Qed.

Lemma edge_addEdge (a b x y : string) (g : gmap string (gmap string bool)) :
  edge (addEdge a b g) x y <-> edge g x y \/ (x = a /\ y = b) \/ (x = b /\ y = a).
Proof.
  rewrite !edge_default, addEdge_lookup.
  destruct (decide (x = b)) as [->|Hxb]; [|destruct (decide (x = a)) as [->|Hxa]];
    cbn [default from_option id].
  - destruct (decide (a = b)) as [->|Hab];
      rewrite !lookup_insert_is_Some'; intuition (subst; auto).
  - rewrite !lookup_insert_is_Some'. intuition (subst; auto).
  - intuition (subst; auto).
Qed.

Lemma addEdge_symmetric (a b : string) (g : gmap string (gmap string bool)) :
  symmetric g -> symmetric (addEdge a b g).
Proof.
  intros Hg x y. rewrite !edge_addEdge. intros [H|[H|H]]; [left; by apply Hg|tauto..].
Qed.

Lemma contains_elem_of (l : list string) (s : string) : contains l s = true <-> s ∈ l.
Proof.
  induction l as [|v l IH]; cbn.
  - split; [discriminate|]. by intros ?%elem_of_nil.
  - destruct (decide (v = s)) as [->|Hne].
    + split; [intros _; apply list_elem_of_here|done].
    + rewrite IH, elem_of_cons. intuition congruence.
Qed.

Lemma moveFrom_fields a b p :
  moveFrom a b p
  = mkPlayerState (Stats p) (Inventory p) (Journal p)
      (if contains (VisitedLocations p) b then VisitedLocations p
       else VisitedLocations p ++ [b])
      (if decide (a <> "") then addEdge a b (MapGraph p) else MapGraph p)
      b.
Proof.
  unfold moveFrom. destruct (decide (a <> "")); cbn;
    destruct (contains (VisitedLocations p) b); reflexivity.
Qed.

Lemma moveFrom_visited a b p : contains (VisitedLocations (moveFrom a b p)) b = true.
Proof.
  rewrite moveFrom_fields. cbn. destruct (contains (VisitedLocations p) b) eqn:E; [done|].
  apply contains_elem_of, elem_of_app. right. apply list_elem_of_here.
Qed.

Lemma moveFrom_located a b p : located (moveFrom a b p).
Proof.
  intros _. apply contains_elem_of.
  replace (CurrentLocation (moveFrom a b p)) with b by (by rewrite moveFrom_fields).
  apply moveFrom_visited.
Qed.

Lemma moveFrom_stateOK a b p : stateOK p -> stateOK (moveFrom a b p).
Proof.
  intros [Hs _]. split; [|apply moveFrom_located].
  rewrite moveFrom_fields. cbn.
  destruct (decide (a <> "")); [by apply addEdge_symmetric|done].
Qed.

Lemma moveFrom_idempotent a b p : moveFrom a b (moveFrom a b p) = moveFrom a b p.
Proof.
  rewrite (moveFrom_fields a b (moveFrom a b p)). rewrite moveFrom_visited.
  rewrite (moveFrom_fields a b p). cbn.
  destruct (decide (a <> "")); [by rewrite addEdge_idempotent|done].
Qed.

(** ** The invariant of the game loop *)

Lemma symmetric_empty : symmetric ∅.
Proof. intros a b (m & Hm & _). by rewrite lookup_empty in Hm. Qed.

Lemma initPlayerState_effect entropy w :
  npcData (initPlayerState entropy w) = npcData w
  /\ disk (initPlayerState entropy w) = disk w
  /\ stdin (initPlayerState entropy w) = stdin w
  /\ exists stats, playerState (initPlayerState entropy w) = mkPlayerState stats [] [] [] ∅ "".
Proof. unfold initPlayerState, statNames, Intn. cbn. eauto. Qed.

Lemma newGame_effect oracle entropy w :
  npcData (newGame oracle entropy w) = npcData w
  /\ disk (newGame oracle entropy w) = disk w
  /\ exists stats start,
       start <> ""
       /\ playerState (newGame oracle entropy w) = mkPlayerState stats [] [] [start] ∅ start.
Proof.
  unfold newGame.
  pose proof (initPlayerState_effect entropy w) as (Hn & Hd & Hs & stats & Hp).
  destruct (initPlayerState entropy w) as [n sc it ps h pr inp lg dr dk].
  cbn in Hn, Hd, Hp. clear Hs. subst n dk ps.
  unfold readLine. cbn.
  destruct inp as [|raw rest]; cbn.
  - split_and!; try done. exists stats, defaultStart. done.
  - split_and!; try done.
    destruct (decide (TrimSpace raw = "")); eexists _, _; (split; [|reflexivity]); done.
Qed.

Lemma newGame_stateOK oracle entropy w : stateOK (playerState (newGame oracle entropy w)).
Proof.
  destruct (newGame_effect oracle entropy w) as (_ & _ & stats & start & Hne & ->).
  split; cbn; [apply symmetric_empty|]. intros _. cbn. apply list_elem_of_here.
Qed.

Lemma boot_Inv oracle entropy input log n file w :
  match file with Some d => stateOK (sdPlayerState d) | None => True end ->
  boot oracle entropy (processStart input log n file) = Next w ->
  Inv w.
Proof.
  intros Hfile. unfold boot, readLine, Inv.
  set (w0 := processStart input log n file).
  assert (Hw : exists inp, let w1 := set_stdin inp w0 in
     (let '(raw, w) := match stdin w0 with l :: r => (l, set_stdin r w0) | [] => ("", w0) end
      in (raw, w)) = (hd "" (stdin w0), w1)).
  { destruct (stdin w0) eqn:E; cbn.
    - exists []. rewrite <- E. by rewrite set_stdin_same.
    - eauto. }
  destruct Hw as [inp Hw]. cbn zeta in Hw.
  destruct (match stdin w0 with l :: r => (l, set_stdin r w0) | [] => ("", w0) end)
    as [raw w1]. injection Hw as -> ->.
  destruct (decide (_ = "2")).
  - unfold loadGame. cbn [disk set_stdin w0 processStart].
    destruct file as [d|].
    + destruct (length (sdHistory d) =? 0)%nat; intros [= <-].
      * destruct (newGame_effect oracle entropy
                    (set_history (sdHistory d)
                       (set_playerState (sdPlayerState d)
                          (set_npcData (sdNpcData d) (set_stdin inp w0)))))
          as (_ & -> & _).
        split; [apply newGame_stateOK|]. done.
      * cbn. done.
    + intros [= <-].
      destruct (newGame_effect oracle entropy (initPlayerState entropy (set_stdin inp w0)))
        as (_ & -> & _).
      destruct (initPlayerState_effect entropy (set_stdin inp w0)) as (_ & -> & _).
      split; [apply newGame_stateOK|]. done.
  - destruct (decide (_ = "3")); [discriminate|]. intros [= <-].
    destruct (newGame_effect oracle entropy (set_stdin inp w0)) as (_ & -> & _).
    split; [apply newGame_stateOK|]. done.
Qed.

Lemma step_Inv oracle entropy w w' :
  Inv w -> step oracle entropy w = Next w' -> Inv w'.
Proof.
  intros [Hp Hd] H. apply step_effect in H. unfold Inv.
  destruct H as [(_ & -> & ->)|h _ _ -> ->|d _ Hdisk _ -> ->|_ (-> & -> & _)|j _ -> ->
                 |dest _ -> ->]; try done.
  - split; [|done]. by rewrite Hdisk in Hd.
  - split; [|done]. by apply moveFrom_stateOK.
Qed.

Lemma reachable_Inv oracle entropy w : reachable oracle entropy w -> Inv w.
Proof.
  induction 1 as [input log n w Hb|w w' _ IH Hs|w input w' _ IH Hb].
  - eapply boot_Inv; [|exact Hb]. exact I.
  - by eapply step_Inv.
  - eapply boot_Inv; [|exact Hb]. apply IH.
Qed.

(** Every world a session goes through is reachable. *)
Lemma turns_reachable oracle entropy n : forall w w',
  reachable oracle entropy w -> turns oracle entropy n w = Next w' ->
  reachable oracle entropy w'.
Proof.
  induction n as [|n IH]; intros w w' Hr H; cbn in H.
  - by injection H as <-.
  - destruct (step oracle entropy w) as [w1| | |] eqn:E; try discriminate.
    eapply IH; [|exact H]. by eapply reach_step.
Qed.

Lemma session_reachable oracle entropy n input w :
  session oracle entropy n input = Next w -> reachable oracle entropy w.
Proof.
  unfold session.
  destruct (boot oracle entropy (processStart input [] 0 None)) as [w0| | |] eqn:E;
    try discriminate.
  apply turns_reachable. by eapply reach_first.
Qed.

(** ** Moves *)

Lemma seleneSession_reachable n w :
  seleneSession n = Next w -> reachable seleneOracle (constEntropy 1) w.
Proof. apply session_reachable. Qed.

(** C2: after the move from a non-empty [a] to [b] the inner map of [a] has
    [b] and the inner map of [b] has [a]; the same move made again leaves
    the player state as it is, so no edge is doubled; and in every state the
    game loop can reach, a neighbour relation in one direction is one in the
    other direction too. *)
Theorem move_graph oracle entropy p a b w :
  a <> "" ->
  reachable oracle entropy w ->
  (exists m, MapGraph (moveFrom a b p) !! a = Some m /\ m !! b = Some true)
  /\ (exists m, MapGraph (moveFrom a b p) !! b = Some m /\ m !! a = Some true)
  /\ moveFrom a b (moveFrom a b p) = moveFrom a b p
  /\ (forall x y, edge (MapGraph (playerState w)) x y -> edge (MapGraph (playerState w)) y x).
Proof.
  intros Ha Hr. split_and!.
  - rewrite moveFrom_fields. cbn. rewrite decide_True by done. apply addEdge_prev.
  - rewrite moveFrom_fields. cbn. rewrite decide_True by done. apply addEdge_dest.
  - apply moveFrom_idempotent.
  - apply reachable_Inv in Hr as [[Hs _] _]. exact Hs.
Qed.

Lemma move_graph_witness :
  let p := playerState (worldOf (seleneSession 1)) in
  let w := worldOf (seleneSession 4) in
  moveFrom "Everdawn" "North" (moveFrom "Everdawn" "North" p) = moveFrom "Everdawn" "North" p
  /\ (forall x y, edge (MapGraph (playerState w)) x y -> edge (MapGraph (playerState w)) y x).
Proof.
  cbn zeta.
  refine (proj2 (proj2 (move_graph seleneOracle (constEntropy 1)
                          (playerState (worldOf (seleneSession 1))) "Everdawn" "North"
                          (worldOf (seleneSession 4)) _ _))).
  - discriminate.
  - apply (seleneSession_reachable 4). vm_compute. reflexivity.
Defined.

(** C7: in every state the game loop can reach, a current location that is
    not the empty string is one of the visited locations.  A new game
    starts with its non-empty starting location visited, and whatever the
    state, a move ends with the destination visited. *)
Theorem current_location_visited oracle entropy w w0 a b p :
  reachable oracle entropy w ->
  (CurrentLocation (playerState w) <> "" ->
   CurrentLocation (playerState w) ∈ VisitedLocations (playerState w))
  /\ (CurrentLocation (playerState (newGame oracle entropy w0)) <> ""
      /\ CurrentLocation (playerState (newGame oracle entropy w0))
           ∈ VisitedLocations (playerState (newGame oracle entropy w0)))
  /\ (CurrentLocation (moveFrom a b p) = b
      /\ CurrentLocation (moveFrom a b p) ∈ VisitedLocations (moveFrom a b p)).
Proof.
  intros Hr. split_and!.
  - apply reachable_Inv in Hr as [[_ Hl] _]. exact Hl.
  - by destruct (newGame_effect oracle entropy w0) as (_ & _ & stats & start & Hne & ->).
  - destruct (newGame_effect oracle entropy w0) as (_ & _ & stats & start & Hne & ->).
    cbn. apply list_elem_of_here.
  - by rewrite moveFrom_fields.
  - apply contains_elem_of.
    replace (CurrentLocation (moveFrom a b p)) with b by (by rewrite moveFrom_fields).
    apply moveFrom_visited.
Qed.

Lemma current_location_visited_witness :
  let w := worldOf (seleneSession 4) in
  CurrentLocation (playerState w) ∈ VisitedLocations (playerState w).
Proof.
  cbn zeta.
  refine (proj1 (current_location_visited seleneOracle (constEntropy 1)
                   (worldOf (seleneSession 4)) (processStart [] [] 0 None)
                   "Everdawn" "North" (playerState (worldOf (seleneSession 1))) _) _).
  - apply (seleneSession_reachable 4). vm_compute. reflexivity.
  - vm_compute. discriminate.
Defined.

(** ** Conversations and affinity *)

Lemma prefix_cons a p b s :
  String.prefix (String a p) (String b s) = if ascii_dec a b then String.prefix p s else false.
Proof. reflexivity. Qed.

(** Rules out one test of the dispatch chain that a given command fails. *)
Ltac skip_test :=
  match goal with
  | |- context [decide (?x ∈ ?l)] =>
      destruct (decide (x ∈ l)) as [Hmem|_];
      [exfalso; repeat (apply elem_of_cons in Hmem as [Hmem|Hmem]; [discriminate|]);
       by apply elem_of_nil in Hmem|]
  | |- context [decide (?x = ?y)] =>
      destruct (decide (x = y)) as [Heq|_]; [discriminate|]
  | |- context [HasPrefix ?x ?y] =>
      replace (HasPrefix x y) with false by reflexivity
  end.

Lemma talk_prefix s :
  HasPrefix s "talk to " = true ->
  exists r, s = String "t" (String "a" (String "l" (String "k" (String " "
                  (String "t" (String "o" (String " " r))))))).
Proof.
  unfold HasPrefix. intros H.
  do 8 (destruct s as [|? s]; [discriminate|];
        rewrite prefix_cons in H; destruct (ascii_dec _ _) as [<-|]; [|discriminate]).
  eauto.
Qed.

(** A line that starts with "talk to " in any letter case reaches the
    conversation branch of the dispatch. *)
Lemma talk_turn oracle entropy w :
  HasPrefix (ToLower (nextCmd w)) "talk to " = true ->
  step oracle entropy w
  = let name := TrimSpace (sliceFrom 8 (nextCmd w)) in
    let w1 := autoPrune oracle (set_stdin (tl (stdin w)) w) in
    if decide (name = "") then Next w1 else startConversation oracle name w1.
Proof.
  unfold nextCmd, step, readLine. intros H.
  destruct (stdin w) as [|raw rest] eqn:Hin; [discriminate|]. cbn [hd tl] in *.
  cbn zeta. rewrite H. apply talk_prefix in H as [r Hr].
  destruct (decide (TrimSpace raw = "")) as [Hb|_]; [by rewrite Hb in Hr|].
  rewrite Hr. do 11 skip_test. reflexivity.
Qed.

Lemma bumpAffinity_fields r :
  (- 2 ^ 63 <= Affinity r < 2 ^ 63 - 1)%Z ->
  bumpAffinity r = mkNpc (Bio r) (Backstory r) (Affinity r + 1).
Proof.
  intros H. unfold bumpAffinity. rewrite wrap64_id; [done|]. unfold isInt64. lia.
Qed.

(** C3, as the code has it.  For an NPC [name] registered with the record
    [r] (its affinity below the largest [int]):
    - a turn of the game loop leaves the record as it is, or it is the
      turn "talk to [name]" whose conversation came to a farewell line
      (goodbye, exit or bye in any letter case), and then the bio and the
      backstory are the same and the affinity is one more, or it is the
      turn "load", and then the registry is the one of the save file;
    - the turn "talk to [name]" followed by input whose first farewell line
      is [raw] returns, with the affinity one more, the input after [raw]
      left, and the call to the chat API for the farewell made last;
    - the same turn followed by input without farewell line never
      returns. *)
Theorem affinity_changes oracle entropy w name r :
  npcData w !! name = Some r ->
  name <> "" ->
  (- 2 ^ 63 <= Affinity r < 2 ^ 63 - 1)%Z ->
  (forall w', step oracle entropy w = Next w' ->
     npcData w' !! name = Some r
     \/ (HasPrefix (ToLower (nextCmd w)) "talk to " = true
         /\ name = TrimSpace (sliceFrom 8 (nextCmd w))
         /\ (exists raw, raw ∈ tl (stdin w) /\ farewellLine raw = true)
         /\ npcData w' !! name = Some (mkNpc (Bio r) (Backstory r) (Affinity r + 1)))
     \/ (ToLower (nextCmd w) = "load"
         /\ exists d, disk w = Some d /\ npcData w' = sdNpcData d))
  /\ (HasPrefix (ToLower (nextCmd w)) "talk to " = true ->
      name = TrimSpace (sliceFrom 8 (nextCmd w)) ->
      (forall pre raw post,
         tl (stdin w) = pre ++ raw :: post ->
         Forall (fun l => farewellLine l = false) pre ->
         farewellLine raw = true ->
         exists w' log convF,
           step oracle entropy w = Next w'
           /\ npcData w' !! name = Some (mkNpc (Bio r) (Backstory r) (Affinity r + 1))
           /\ stdin w' = post
           /\ oracleLog w' = log ++ [convF ++ [user (TrimSpace raw)]])
      /\ (Forall (fun l => farewellLine l = false) (tl (stdin w)) ->
          step oracle entropy w = Hang)).
Proof.
  intros Hreg Hname Haff. split.
  - intros w' H. apply step_effect in H.
    destruct H as [(-> & _ & _)|h _ -> _ _|d Hl Hd Hn _ _|Ht (_ & _ & Hother & Hbump & Hconv)
                   |j -> _ _|dest -> _ _]; auto.
    + right. right. eauto.
    + destruct (decide (name = TrimSpace (sliceFrom 8 (nextCmd w)))) as [Heq|Hne].
      * right. left. split_and!; try done.
        -- destruct Hconv as (pre & raw & post & _ & _ & -> & _ & Hf & _).
           exists raw. split; [|done]. apply elem_of_app. right. apply list_elem_of_here.
        -- destruct Hbump as (info & Hi & Hm). rewrite <- Heq in *. rewrite Hreg in Hm.
           subst info. by rewrite Hi, bumpAffinity_fields.
      * left. rewrite Hother by done. done.
  - intros Ht Heq.
    pose proof (autoPrune_frame oracle (set_stdin (tl (stdin w)) w)) as [(Hn & _ & _) Hs].
    cbn in Hn, Hs.
    assert (Hstep : step oracle entropy w
      = startConversation oracle name (autoPrune oracle (set_stdin (tl (stdin w)) w))).
    { rewrite talk_turn by done. cbn zeta. rewrite <- Heq. by rewrite decide_False. }
    rewrite Hstep. unfold startConversation, ensureNpc.
    rewrite Hn, Hreg. rewrite Hn, Hreg. rewrite Hs. split.
    + intros pre raw post -> Hpre Hraw.
      edestruct (convLoop_completes oracle pre raw post) as (w2 & log & convF & -> & ? & ? & ?);
        [done..|].
      eexists _, log, convF. split_and!; try done.
      cbn. by rewrite lookup_insert_eq, bumpAffinity_fields.
    + intros Hall. by rewrite convLoop_starves.
Qed.

Lemma affinity_changes_witness :
  exists w' log convF,
    step (cannedOracle []) (constEntropy 0) talkWorld = Next w'
    /\ npcData w' !! "Selene"
       = Some (mkNpc "Selene the Librarian." "She guards the old archive." (1 + 1))
    /\ stdin w' = []
    /\ oracleLog w' = log ++ [convF ++ [user (TrimSpace "Goodbye")]].
Proof.
  refine (proj1 (proj2 (affinity_changes (cannedOracle []) (constEntropy 0) talkWorld
                          "Selene"
                          (mkNpc "Selene the Librarian." "She guards the old archive." 1)
                          eq_refl _ _) eq_refl eq_refl)
                ["hello"] "Goodbye" [] eq_refl _ eq_refl).
  - discriminate.
  - cbn. lia.
  - repeat constructor.
Defined.

(** C3 as claimed fails at the turn "load": in the session [seleneInput],
    after the second conversation Selene's affinity is 2, and the load that
    follows puts the saved 1 back. *)
Lemma load_lowers_affinity :
  exists w w' r r',
    reachable seleneOracle (constEntropy 1) w
    /\ nextCmd w = "load"
    /\ step seleneOracle (constEntropy 1) w = Next w'
    /\ npcData w !! "Selene" = Some r
    /\ npcData w' !! "Selene" = Some r'
    /\ Affinity r = 2%Z /\ Affinity r' = 1%Z.
Proof.
  exists (worldOf (seleneSession 5)), (worldOf (seleneSession 6)).
  exists (mkNpc "Selene the Librarian." ": She guards the old archive." 2).
  exists (mkNpc "Selene the Librarian." ": She guards the old archive." 1).
  split_and!.
  - apply (seleneSession_reachable 5). vm_compute. reflexivity.
  - vm_compute. reflexivity.
  - vm_compute. reflexivity.
  - vm_compute. reflexivity.
  - vm_compute. reflexivity.
  - reflexivity.
  - reflexivity.
Qed.

(** * Further properties of the program *)

(** ** Starting the program *)

(** [main] reaches the game loop either through a new game or, when the
    menu choice is 2 and the save file holds a history that is not empty,
    with the saved registry, player state and history and everything else
    at its initial value. *)
Lemma boot_cases oracle entropy input log n file w :
  boot oracle entropy (processStart input log n file) = Next w ->
  (exists w0, w = newGame oracle entropy w0 /\ disk w0 = file)
  \/ (exists d, file = Some d /\ sdHistory d <> [] /\ TrimSpace (hd "" input) = "2"
                /\ w = mkWorld (sdNpcData d) ∅ ∅ (sdPlayerState d) (sdHistory d) true
                         (tl input) log n file).
Proof.
  unfold boot, readLine.
  assert (Hr : (match stdin (processStart input log n file) with
                | l :: r => (l, set_stdin r (processStart input log n file))
                | [] => ("", processStart input log n file)
                end) = (hd "" input, processStart (tl input) log n file))
    by (by destruct input).
  rewrite Hr. clear Hr.
  destruct (decide (TrimSpace (hd "" input) = "2")) as [H2|_].
  - unfold loadGame. cbn [disk processStart]. destruct file as [d|].
    + destruct (length (sdHistory d) =? 0)%nat eqn:El; intros [= <-].
      * left. eexists. split; [reflexivity|]. reflexivity.
      * right. exists d. split_and!; try done.
        intros Hnil. by rewrite Hnil in El.
    + intros [= <-]. left. eexists. split; [reflexivity|].
      by destruct (initPlayerState_effect entropy (processStart (tl input) log n None))
        as (_ & -> & _).
  - destruct (decide (_ = "3")); [discriminate|]. intros [= <-].
    left. eexists. split; reflexivity.
Qed.

(** ** Invariants of the player state *)

Section PlayerInvariant.

Variable oracle : list (list Message) -> list Message -> option string.
Variable entropy : nat -> Z.
Variable P : PlayerState -> Prop.
Hypothesis P_new : forall w0, P (playerState (newGame oracle entropy w0)).
Hypothesis P_journal : forall j p, P p -> P (set_Journal j p).
Hypothesis P_move : forall dest p, P p -> P (moveFrom (CurrentLocation p) dest p).

Lemma player_invariant_disk w :
  reachable oracle entropy w ->
  P (playerState w) /\ match disk w with Some d => P (sdPlayerState d) | None => True end.
Proof.
  induction 1 as [input log n w Hb|w w' _ [IHp IHd] Hs|w input w' _ [IHp IHd] Hb].
  - apply boot_cases in Hb as [(w0 & -> & Hd)|(d & [=] & _)].
    split; [apply P_new|].
    destruct (newGame_effect oracle entropy w0) as (_ & -> & _). by rewrite Hd.
  - apply step_effect in Hs.
    destruct Hs as [(_ & -> & ->)|h _ _ -> ->|d _ Hdisk _ -> ->|_ (-> & -> & _)|j _ -> ->
                   |dest _ -> ->]; try done.
    + split; [|done]. by rewrite Hdisk in IHd.
    + split; [by apply P_journal|done].
    + split; [by apply P_move|done].
  - apply boot_cases in Hb as [(w0 & -> & Hd)|(d & Hd & _ & _ & ->)].
    + split; [apply P_new|].
      destruct (newGame_effect oracle entropy w0) as (_ & -> & _). by rewrite Hd.
    + cbn. rewrite Hd in *. done.
Qed.

Lemma player_invariant w : reachable oracle entropy w -> P (playerState w).
Proof. intros H. by apply player_invariant_disk. Qed.

End PlayerInvariant.

Lemma newGame_player oracle entropy w0 :
  exists start,
    start <> ""
    /\ playerState (newGame oracle entropy w0)
       = mkPlayerState (Stats (playerState (initPlayerState entropy w0))) [] [] [start] ∅ start.
Proof.
  unfold newGame.
  pose proof (initPlayerState_effect entropy w0) as (_ & _ & _ & stats & Hp).
  destruct (initPlayerState entropy w0) as [n sc it ps h pr inp lg dr dk].
  cbn in Hp. subst ps. unfold readLine. cbn.
  destruct inp as [|raw rest]; cbn.
  - by exists defaultStart.
  - destruct (decide (TrimSpace raw = "")); eexists; (split; [|reflexivity]); done.
Qed.

(** X8: The inventory is never written: it is empty in every state the game
    loop can reach. *)
Theorem inventory_always_empty oracle entropy w :
  reachable oracle entropy w -> Inventory (playerState w) = [].
Proof.
  apply (player_invariant oracle entropy (fun p => Inventory p = [])).
  - intros w0. by destruct (newGame_player oracle entropy w0) as (start & _ & ->).
  - done.
  - intros dest p Hp. by rewrite moveFrom_fields.
Qed.

Lemma inventory_always_empty_witness :
  Inventory (playerState (worldOf (seleneSession 4))) = [].
Proof.
  apply (inventory_always_empty seleneOracle (constEntropy 1)).
  apply (seleneSession_reachable 4). vm_compute. reflexivity.
Defined.

Lemma initPlayerState_stats (entropy : nat -> Z) w :
  Stats (playerState (initPlayerState entropy w))
  = <["CHA" := wrap64 (entropy (5 + draws w)%nat mod 11 + 8)]>
      (<["WIS" := wrap64 (entropy (4 + draws w)%nat mod 11 + 8)]>
         (<["INT" := wrap64 (entropy (3 + draws w)%nat mod 11 + 8)]>
            (<["CON" := wrap64 (entropy (2 + draws w)%nat mod 11 + 8)]>
               (<["DEX" := wrap64 (entropy (1 + draws w)%nat mod 11 + 8)]>
                  (<["STR" := wrap64 (entropy (draws w) mod 11 + 8)]> ∅))))).
Proof. reflexivity. Qed.

Lemma stat_draw_range (entropy : nat -> Z) k : (8 <= wrap64 (entropy k mod 11 + 8) <= 18)%Z.
Proof.
  pose proof (Z.mod_pos_bound (entropy k) 11 ltac:(lia)).
  rewrite wrap64_id; [lia | unfold isInt64; lia].
Qed.

Lemma reachable_stats oracle entropy w :
  reachable oracle entropy w ->
  forall s, match Stats (playerState w) !! s with
            | Some v => s ∈ statNames /\ (8 <= v <= 18)%Z
            | None => s ∉ statNames
            end.
Proof.
  apply (player_invariant oracle entropy
           (fun p => forall s, match Stats p !! s with
                               | Some v => s ∈ statNames /\ (8 <= v <= 18)%Z
                               | None => s ∉ statNames
                               end)).
  - intros w0 s. destruct (newGame_player oracle entropy w0) as (start & _ & ->).
    cbn [Stats]. rewrite initPlayerState_stats. unfold statNames.
    repeat (rewrite lookup_insert; case_decide;
            [subst; split; [set_solver|apply stat_draw_range]|]).
    rewrite lookup_empty. intros Hin.
    repeat (apply elem_of_cons in Hin as [?|Hin]; [congruence|]).
    by apply elem_of_nil in Hin.
  - done.
  - intros dest p Hp. by rewrite moveFrom_fields.
Qed.

(** X9: The stats are written once, by [initPlayerState]: in every state the
    game loop can reach the stats map has exactly the six attributes, each
    with a value from 8 to 18. *)
Theorem stats_always_in_range oracle entropy w :
  reachable oracle entropy w ->
  forall s, match Stats (playerState w) !! s with
            | Some v => s ∈ statNames /\ (8 <= v <= 18)%Z
            | None => s ∉ statNames
            end.
Proof. apply reachable_stats. Qed.

Lemma stats_always_in_range_witness :
  match Stats (playerState (worldOf (seleneSession 4))) !! "DEX" with
  | Some v => "DEX" ∈ statNames /\ (8 <= v <= 18)%Z
  | None => "DEX" ∉ statNames
  end.
Proof.
  apply (stats_always_in_range seleneOracle (constEntropy 1)).
  apply (seleneSession_reachable 4). vm_compute. reflexivity.
Defined.

(** X11: A location is appended to the visited list only when it is not in it:
    in every state the game loop can reach no location is listed twice. *)
Theorem visited_no_duplicates oracle entropy w :
  reachable oracle entropy w -> NoDup (VisitedLocations (playerState w)).
Proof.
  apply (player_invariant oracle entropy (fun p => NoDup (VisitedLocations p))).
  - intros w0. destruct (newGame_player oracle entropy w0) as (start & _ & ->).
    cbn. apply NoDup_singleton.
  - done.
  - intros dest p Hp. rewrite moveFrom_fields. cbn.
    destruct (contains (VisitedLocations p) dest) eqn:E; [done|].
    apply NoDup_app. split_and!; [done| |apply NoDup_singleton].
    intros x Hx ->%list_elem_of_singleton.
    apply contains_elem_of in Hx. congruence.
Qed.

Lemma visited_no_duplicates_witness :
  NoDup (VisitedLocations (playerState (worldOf (seleneSession 4)))).
Proof.
  apply (visited_no_duplicates seleneOracle (constEntropy 1)).
  apply (seleneSession_reachable 4). vm_compute. reflexivity.
Defined.

Lemma addEdge_keys (a b k : string) (g : gmap string (gmap string bool)) :
  is_Some (addEdge a b g !! k) <-> is_Some (g !! k) \/ k = a \/ k = b.
Proof.
  rewrite addEdge_lookup.
  destruct (decide (k = b)) as [->|Hb]; [|destruct (decide (k = a)) as [->|Ha]].
  - split; [auto|eauto].
  - split; [auto|eauto].
  - intuition idtac.
Qed.

(** X12: The map graph only holds places the player has been to: in every state
    the game loop can reach, both ends of every edge, and every node,
    are visited locations. *)
Theorem map_nodes_are_visited oracle entropy w :
  reachable oracle entropy w ->
  (forall k, is_Some (MapGraph (playerState w) !! k) -> k ∈ VisitedLocations (playerState w))
  /\ (forall a b, edge (MapGraph (playerState w)) a b ->
        a ∈ VisitedLocations (playerState w) /\ b ∈ VisitedLocations (playerState w)).
Proof.
  intros Hr.
  assert (Hk : located (playerState w)
               /\ forall k, is_Some (MapGraph (playerState w) !! k) ->
                            k ∈ VisitedLocations (playerState w)).
  { revert w Hr.
    apply (player_invariant oracle entropy
             (fun p => located p
                       /\ forall k, is_Some (MapGraph p !! k) -> k ∈ VisitedLocations p)).
    - intros w0. destruct (newGame_player oracle entropy w0) as (start & _ & ->).
      split; [intros _; cbn; apply list_elem_of_here|].
      cbn. intros k [? Hk]. by rewrite lookup_empty in Hk.
    - done.
    - intros dest p [Hl Hk]. split; [apply moveFrom_located|].
      assert (Hsub : forall x, x ∈ VisitedLocations p ->
                x ∈ VisitedLocations (moveFrom (CurrentLocation p) dest p)).
      { intros x Hx. rewrite moveFrom_fields. cbn.
        destruct (contains _ dest); [done|]. apply elem_of_app. by left. }
      assert (Hdest : dest ∈ VisitedLocations (moveFrom (CurrentLocation p) dest p))
        by (apply contains_elem_of, moveFrom_visited).
      intros k. rewrite (moveFrom_fields _ _ p) at 1. cbn [MapGraph].
      destruct (decide (CurrentLocation p <> "")) as [Hc|_]; [|by auto].
      rewrite addEdge_keys. intros [H|[->| ->]]; [by auto| |done].
      by apply Hsub, Hl. }
  destruct Hk as [_ Hk]. split; [done|].
  intros a b Hab. pose proof (reachable_Inv _ _ _ Hr) as [[Hs _] _].
  split; apply Hk.
  - destruct Hab as (m & -> & _). eauto.
  - apply Hs in Hab as (m & -> & _). eauto.
Qed.

Lemma map_nodes_are_visited_witness :
  let p := playerState (worldOf (seleneSession 4)) in
  (forall k, is_Some (MapGraph p !! k) -> k ∈ VisitedLocations p)
  /\ (forall a b, edge (MapGraph p) a b -> a ∈ VisitedLocations p /\ b ∈ VisitedLocations p).
Proof.
  apply (map_nodes_are_visited seleneOracle (constEntropy 1)).
  apply (seleneSession_reachable 4). vm_compute. reflexivity.
Defined.

(** ** The history *)

Lemma pruneHistory_head oracle msgs w :
  (exists c rest, msgs = system c :: rest) ->
  exists c rest, fst (pruneHistory oracle msgs w) = system c :: rest.
Proof.
  intros H. unfold pruneHistory. destruct (length msgs <=? 30)%nat; [done|].
  unfold callOpenAI. cbn. eauto.
Qed.

Lemma pruneHistory_length oracle msgs w :
  (length (fst (pruneHistory oracle msgs w)) <= 30)%nat.
Proof.
  unfold pruneHistory. destruct (Nat.leb_spec (length msgs) 30); [done|].
  unfold callOpenAI. cbn. rewrite length_drop. lia.
Qed.

Lemma autoPrune_history oracle w :
  history (autoPrune oracle w)
  = if pruneEnabled w then fst (pruneHistory oracle (history w) w) else history w.
Proof.
  unfold autoPrune. destruct (pruneEnabled w); [|done].
  by destruct (pruneHistory oracle (history w) w).
Qed.

Lemma convLoop_keeps oracle lines : forall conv w1 w2,
  convLoop oracle conv lines w1 = Some w2 ->
  history w2 = history w1 /\ sceneDescriptions w2 = sceneDescriptions w1
  /\ itemsData w2 = itemsData w1 /\ pruneEnabled w2 = pruneEnabled w1
  /\ draws w2 = draws w1.
Proof.
  induction lines as [|raw rest IH]; intros conv w1 w2 E; [discriminate|].
  cbn [convLoop] in E. destruct (decide (TrimSpace raw = "")); [by apply IH in E|].
  destruct (isFarewell _).
  - unfold callOpenAI in E. cbn in E. by injection E as <-.
  - unfold callOpenAI in E. cbn [fst snd] in E. by apply IH in E.
Qed.

(** A conversation is kept apart from the history of the game. *)
Lemma startConversation_history oracle npcName w w' :
  startConversation oracle npcName w = Next w' ->
  history w' = history w /\ sceneDescriptions w' = sceneDescriptions w
  /\ itemsData w' = itemsData w /\ pruneEnabled w' = pruneEnabled w /\ draws w' = draws w.
Proof.
  unfold startConversation.
  assert (He : history (ensureNpc oracle npcName w) = history w
               /\ sceneDescriptions (ensureNpc oracle npcName w) = sceneDescriptions w
               /\ itemsData (ensureNpc oracle npcName w) = itemsData w
               /\ pruneEnabled (ensureNpc oracle npcName w) = pruneEnabled w
               /\ draws (ensureNpc oracle npcName w) = draws w).
  { unfold ensureNpc. destruct (npcData w !! npcName); [done|]. unfold callOpenAI. by cbn. }
  destruct He as (<- & <- & <- & <- & <-).
  generalize (ensureNpc oracle npcName w). intros w1.
  destruct (npcData w1 !! npcName) as [info|]; [|discriminate].
  generalize [system (personaSystem npcName info)]. intros conv.
  destruct (convLoop oracle conv (stdin w1) w1) as [w2|] eqn:E; [|discriminate].
  intros [= <-]. cbn. by eapply convLoop_keeps.
Qed.

(** What a turn does to the history and to the save file.  [h1] is the
    history once the turn has pruned it. *)
Lemma step_history oracle entropy w w' :
  step oracle entropy w = Next w' ->
  let h1 := history (autoPrune oracle (set_stdin (tl (stdin w)) w)) in
  ((nextCmd w = "" \/ HasPrefix (ToLower (nextCmd w)) "set prune" = true)
   /\ history w' = history w /\ disk w' = disk w)
  \/ (history w' = h1 /\ disk w' = disk w)
  \/ (ToLower (nextCmd w) = "save" /\ history w' = h1
      /\ exists n p, disk w' = Some (mkSaveData n p h1))
  \/ (ToLower (nextCmd w) = "load" /\ disk w' = disk w
      /\ exists d, disk w = Some d /\ history w' = sdHistory d)
  \/ (disk w' = disk w /\ exists resp, history w' = h1 ++ [user (nextCmd w); assistant resp]).
Proof.
  unfold step, readLine, nextCmd.
  destruct (stdin w) as [|raw rest] eqn:Hin.
  { cbn. intros [= <-]. left. auto. }
  cbn [hd tl]. cbn zeta. destruct (decide (TrimSpace raw = "")) as [|Hne].
  { intros [= <-]. left. auto. }
  destruct (HasPrefix (ToLower (TrimSpace raw)) "set prune") eqn:Hsp.
  { destruct (_ && _); intros [= <-]; left; auto. }
  pose proof (autoPrune_frame oracle (set_stdin rest w)) as [(_ & _ & Hd) _].
  cbn in Hd.
  set (w1 := autoPrune oracle (set_stdin rest w)) in *.
  destruct (decide (_ ∈ ["quit"; "exit"; "stop"])); [discriminate|].
  destruct (decide (_ ∈ ["help"; "?"])); [intros [= <-]; right; left; auto|].
  destruct (decide (_ = "inventory")); [intros [= <-]; right; left; auto|].
  destruct (decide (_ = "stats")); [intros [= <-]; right; left; auto|].
  destruct (decide (_ = "journal")); [intros [= <-]; right; left; auto|].
  destruct (decide (_ = "save")).
  { intros [= <-]. right. right. left. cbn. eauto. }
  destruct (decide (_ = "load")).
  { unfold loadGame. destruct (disk w1) as [d|] eqn:Ed.
    - intros [= <-]. right. right. right. left. cbn. rewrite <- Hd. split_and!; eauto.
    - intros [= <-]. right. left. split; congruence. }
  destruct (decide (_ = "hint")).
  { unfold callOpenAI. cbn. intros [= <-]. right. left. auto. }
  destruct (HasPrefix _ "roll").
  { intros [= <-]. right. left. unfold doRoll, Intn. repeat case_match; cbn; auto. }
  destruct (HasPrefix _ "map"); [intros [= <-]; right; left; auto|].
  destruct (decide (_ = "talk to")).
  { unfold listNpcs, callOpenAI. cbn. intros [= <-]. right. left. auto. }
  destruct (HasPrefix _ "talk to ") eqn:Htalk.
  { destruct (decide (_ = "")); [intros [= <-]; right; left; auto|].
    intros H. pose proof (startConversation_history _ _ _ _ H) as (-> & _).
    apply startConversation_effect in H as (_ & -> & _). right. left. auto. }
  destruct (decide (_ ∈ ["look"; "observe"; "where"])).
  { intros [= <-]. right. right. right. right. unfold doLook, narrate, callOpenAI,
      printEnvironmentSummary, listExits, listNpcs, listItems. cbn.
    split; [done|]. rewrite <- app_assoc. cbn. eauto. }
  destruct (firstPrefix _ ["examine "; "look at "; "inspect "]).
  { destruct (decide (_ = "")); intros [= <-]; [right; left; auto|].
    right. right. right. right. unfold doExamine, callOpenAI. cbn.
    split; [done|]. rewrite <- app_assoc. cbn. eauto. }
  match goal with |- match ?x with _ => _ end = _ -> _ => destruct x as [dest|] end.
  - intros [= <-]. right. right. right. right. unfold doMove, narrate, callOpenAI,
      printEnvironmentSummary, listExits, listNpcs, listItems. cbn.
    split; [done|]. rewrite <- app_assoc. cbn. eauto.
  - intros [= <-]. right. right. right. right. unfold narrate, callOpenAI. cbn.
    split; [done|]. rewrite <- app_assoc. cbn. eauto.
Qed.

Lemma newGame_history oracle entropy w0 :
  exists start intro,
    history (newGame oracle entropy w0)
    = [system SYSTEM_PROMPT; user ("Begin the adventure: " +:+ start); assistant intro].
Proof.
  unfold newGame. generalize (initPlayerState entropy w0). intros w.
  unfold readLine, callOpenAI. destruct (stdin w); cbn; eauto.
Qed.

(** X7: The history the narrator is sent always opens with a system message:
    the system prompt of a new game, or the summary that pruning puts in
    its place.  This holds in every state the game loop can reach, and of
    the history in the save file. *)
Theorem history_opens_with_system oracle entropy w :
  reachable oracle entropy w ->
  (exists c rest, history w = system c :: rest)
  /\ match disk w with
     | Some d => exists c rest, sdHistory d = system c :: rest
     | None => True
     end.
Proof.
  induction 1 as [input log n w Hb|w w' _ [IHh IHd] Hs|w input w' _ [IHh IHd] Hb].
  - apply boot_cases in Hb as [(w0 & -> & Hd)|(d & [=] & _)].
    destruct (newGame_history oracle entropy w0) as (start & intro & ->).
    destruct (newGame_effect oracle entropy w0) as (_ & -> & _). rewrite Hd. eauto.
  - assert (H1 : exists c rest,
               history (autoPrune oracle (set_stdin (tl (stdin w)) w)) = system c :: rest).
    { rewrite autoPrune_history. cbn. destruct (pruneEnabled w); [|done].
      by apply pruneHistory_head. }
    apply step_history in Hs. cbn zeta in Hs.
    destruct Hs as [(_ & -> & ->)|[(-> & ->)|[(_ & -> & n & p & ->)
                   |[(_ & -> & d & Hd & ->)|(-> & resp & ->)]]]]; try done.
    + split; [|done]. by rewrite Hd in IHd.
    + split; [|done]. destruct H1 as (c & rest & ->). cbn. eauto.
  - apply boot_cases in Hb as [(w0 & -> & Hd)|(d & Hd & _ & _ & ->)].
    + destruct (newGame_history oracle entropy w0) as (start & intro & ->).
      destruct (newGame_effect oracle entropy w0) as (_ & -> & _). rewrite Hd. eauto.
    + cbn. rewrite Hd in *. done.
Qed.

Lemma history_opens_with_system_witness :
  exists c rest, history (worldOf (seleneSession 6)) = system c :: rest.
Proof.
  apply (history_opens_with_system seleneOracle (constEntropy 1)).
  apply (seleneSession_reachable 6). vm_compute. reflexivity.
Defined.

(** X6: With summarisation on, a turn that is not a blank line, a "set prune"
    command or a "load" ends with at most 32 messages in the history: the
    30 that pruning leaves at most, and the two the turn may add. *)
Theorem pruned_turn_bounds_history oracle entropy w w' :
  step oracle entropy w = Next w' ->
  pruneEnabled w = true ->
  nextCmd w <> "" ->
  HasPrefix (ToLower (nextCmd w)) "set prune" = false ->
  ToLower (nextCmd w) <> "load" ->
  (length (history w') <= 32)%nat.
Proof.
  intros Hs Hp Hne Hsp Hl.
  assert (H1 : (length (history (autoPrune oracle (set_stdin (tl (stdin w)) w))) <= 30)%nat).
  { rewrite autoPrune_history. cbn. rewrite Hp. apply pruneHistory_length. }
  apply step_history in Hs. cbn zeta in Hs.
  destruct Hs as [([?|?] & _)|[(-> & _)|[(_ & -> & _)|[(? & _)|(_ & resp & ->)]]]];
    try done; try congruence; try lia.
  rewrite length_app. cbn. lia.
Qed.

Lemma pruned_turn_bounds_history_witness :
  (length (history (worldOf (step (cannedOracle []) (constEntropy 0) longWorld))) <= 32)%nat.
Proof.
  apply (pruned_turn_bounds_history (cannedOracle []) (constEntropy 0) longWorld);
    try reflexivity; try discriminate.
Defined.

(** ** Commands that match a whole line *)

Lemma autoPrune_idle oracle w :
  pruneEnabled w = false \/ (length (history w) <= 30)%nat -> autoPrune oracle w = w.
Proof.
  unfold autoPrune, pruneHistory. intros [->|H]; [done|].
  destruct (pruneEnabled w); [|done].
  destruct (Nat.leb_spec (length (history w)) 30); [|lia]. by destruct w.
Qed.

Lemma nextCmd_input w :
  ToLower (nextCmd w) <> "" ->
  exists raw rest, stdin w = raw :: rest /\ nextCmd w = TrimSpace raw /\ TrimSpace raw <> "".
Proof.
  unfold nextCmd. destruct (stdin w) as [|raw rest]; [done|]. cbn [hd].
  intros H. exists raw, rest. split_and!; try done.
  intros Hb. by rewrite Hb in H.
Qed.

Lemma step_save oracle entropy w :
  ToLower (nextCmd w) = "save" ->
  step oracle entropy w
  = let w1 := autoPrune oracle (set_stdin (tl (stdin w)) w) in
    Next (saveGame (history w1) w1).
Proof.
  intros H. destruct (nextCmd_input w) as (raw & rest & Hin & Hc & Hne); [by rewrite H|].
  rewrite Hc in H. unfold step, readLine. rewrite Hin. cbn [tl]. cbn zeta.
  rewrite decide_False by done. rewrite H. repeat skip_test. by rewrite decide_True.
Qed.

Lemma step_load oracle entropy w :
  ToLower (nextCmd w) = "load" ->
  step oracle entropy w
  = let w1 := autoPrune oracle (set_stdin (tl (stdin w)) w) in
    match loadGame w1 with
    | Some (h, w2) => Next (set_history h w2)
    | None => Next w1
    end.
Proof.
  intros H. destruct (nextCmd_input w) as (raw & rest & Hin & Hc & Hne); [by rewrite H|].
  rewrite Hc in H. unfold step, readLine. rewrite Hin. cbn [tl]. cbn zeta.
  rewrite decide_False by done. rewrite H. repeat skip_test. by rewrite decide_True.
Qed.

(** X15: help, ?, inventory, stats and journal only print: their turn changes
    what pruning changes and nothing else, so with summarisation off, or
    with at most 30 messages in the history, it only takes its line off the
    input - no call to the chat API, no change of state. *)
Theorem printing_commands_are_local oracle entropy w :
  ToLower (nextCmd w) ∈ ["help"; "?"; "inventory"; "stats"; "journal"] ->
  step oracle entropy w = Next (autoPrune oracle (set_stdin (tl (stdin w)) w))
  /\ (pruneEnabled w = false \/ (length (history w) <= 30)%nat ->
      step oracle entropy w = Next (set_stdin (tl (stdin w)) w)).
Proof.
  intros H.
  assert (Hs : step oracle entropy w = Next (autoPrune oracle (set_stdin (tl (stdin w)) w))).
  { destruct (nextCmd_input w) as (raw & rest & Hin & Hc & Hne).
    { intros Hnil. rewrite Hnil in H.
      repeat (apply elem_of_cons in H as [H|H]; [discriminate|]). by apply elem_of_nil in H. }
    rewrite Hc in H. unfold step, readLine. rewrite Hin. cbn [tl]. cbn zeta.
    rewrite decide_False by done.
    repeat (apply elem_of_cons in H as [H|H];
            [rewrite H; repeat skip_test;
             first [by rewrite decide_True by (repeat constructor)
                   |by rewrite decide_True]|]).
    by apply elem_of_nil in H. }
  split; [done|]. intros Hidle. rewrite Hs. by rewrite autoPrune_idle.
Qed.

Lemma printing_commands_are_local_witness :
  step (cannedOracle []) (constEntropy 0)
       (set_stdin ["Inventory"; "look"] (processStart [] [] 0 None))
  = Next (set_stdin ["look"] (processStart [] [] 0 None)).
Proof.
  refine (proj2 (printing_commands_are_local (cannedOracle []) (constEntropy 0)
                   (set_stdin ["Inventory"; "look"] (processStart [] [] 0 None)) _) _).
  - vm_compute. repeat constructor.
  - right. cbn. lia.
Defined.

(** ** Saving and loading *)

Lemma autoPrune_keeps oracle w :
  sceneDescriptions (autoPrune oracle w) = sceneDescriptions w
  /\ itemsData (autoPrune oracle w) = itemsData w
  /\ pruneEnabled (autoPrune oracle w) = pruneEnabled w
  /\ draws (autoPrune oracle w) = draws w.
Proof.
  unfold autoPrune, pruneHistory, callOpenAI.
  destruct (pruneEnabled w) eqn:E; [|done].
  destruct (length (history w) <=? 30)%nat; cbn; done.
Qed.

(** X16: A "save" turn followed by a "load" turn gives back the registry and
    the player state the save started from and the history it wrote, with
    both lines taken off the input.  (The scene and item descriptions are
    no part of the save file; the two turns leave them alone.) *)
Theorem save_then_load oracle entropy w r1 r2 rest :
  stdin w = r1 :: r2 :: rest ->
  ToLower (TrimSpace r1) = "save" ->
  ToLower (TrimSpace r2) = "load" ->
  exists w1 w2,
    step oracle entropy w = Next w1
    /\ step oracle entropy w1 = Next w2
    /\ disk w1 = Some (mkSaveData (npcData w) (playerState w) (history w1))
    /\ npcData w2 = npcData w
    /\ playerState w2 = playerState w
    /\ history w2 = history w1
    /\ sceneDescriptions w2 = sceneDescriptions w
    /\ itemsData w2 = itemsData w
    /\ stdin w2 = rest.
Proof.
  intros Hin H1 H2.
  assert (Hc1 : ToLower (nextCmd w) = "save") by (unfold nextCmd; by rewrite Hin).
  pose proof (step_save oracle entropy w Hc1) as Hstep1.
  cbn zeta in Hstep1. rewrite Hin in Hstep1. cbn [tl] in Hstep1.
  pose proof (autoPrune_frame oracle (set_stdin (r2 :: rest) w)) as [(Hn & Hp & Hd) Hs].
  pose proof (autoPrune_keeps oracle (set_stdin (r2 :: rest) w)) as (Hsc & Hit & _ & _).
  cbn in Hn, Hp, Hd, Hs, Hsc, Hit.
  remember (autoPrune oracle (set_stdin (r2 :: rest) w)) as wa eqn:Ewa. clear Ewa.
  assert (Hc2 : ToLower (nextCmd (saveGame (history wa) wa)) = "load").
  { unfold nextCmd. cbn [saveGame stdin set_disk]. by rewrite Hs. }
  pose proof (step_load oracle entropy _ Hc2) as Hstep2. cbn zeta in Hstep2.
  pose proof (autoPrune_frame oracle (set_stdin (tl (stdin (saveGame (history wa) wa)))
                                        (saveGame (history wa) wa)))
    as [(Hn2 & Hp2 & Hd2) Hs2].
  pose proof (autoPrune_keeps oracle (set_stdin (tl (stdin (saveGame (history wa) wa)))
                                        (saveGame (history wa) wa)))
    as (Hsc2 & Hit2 & _ & _).
  remember (autoPrune oracle (set_stdin (tl (stdin (saveGame (history wa) wa)))
                                (saveGame (history wa) wa))) as wb eqn:Ewb. clear Ewb.
  cbn in Hn2, Hp2, Hd2, Hs2, Hsc2, Hit2. rewrite Hs in Hs2. cbn in Hs2.
  unfold loadGame in Hstep2. rewrite Hd2 in Hstep2.
  eexists _, _. split; [exact Hstep1|]. split; [exact Hstep2|].
  cbn. rewrite Hn, Hp. split_and!; congruence.
Qed.

Lemma save_then_load_witness :
  exists w1 w2,
    step (cannedOracle []) (constEntropy 0)
         (set_stdin ["save"; "LOAD"; "look"] talkWorld) = Next w1
    /\ step (cannedOracle []) (constEntropy 0) w1 = Next w2
    /\ npcData w2 = npcData talkWorld
    /\ stdin w2 = ["look"].
Proof.
  destruct (save_then_load (cannedOracle []) (constEntropy 0)
              (set_stdin ["save"; "LOAD"; "look"] talkWorld) "save" "LOAD" ["look"]
              eq_refl eq_refl eq_refl)
    as (w1 & w2 & H1 & H2 & _ & Hn & _ & _ & _ & _ & Hs).
  exists w1, w2. split_and!; done.
Defined.

(** X17: A "save" turn, the program stopped and started again, and 2 chosen at
    the menu: the game loop starts with the registry and the player state
    the save started from and the history it wrote.  The scene and item
    descriptions are not saved and start empty, and summarisation is on
    again whatever it was. *)
Theorem save_restart_load oracle entropy w w1 input :
  ToLower (nextCmd w) = "save" ->
  history w <> [] ->
  step oracle entropy w = Next w1 ->
  TrimSpace (hd "" input) = "2" ->
  boot oracle entropy (processStart input (oracleLog w1) (draws w1) (disk w1))
  = Next (mkWorld (npcData w) ∅ ∅ (playerState w) (history w1) true (tl input)
            (oracleLog w1) (draws w1) (disk w1)).
Proof.
  intros Hc Hh Hs H2. rewrite step_save in Hs by done. cbn zeta in Hs.
  injection Hs as <-.
  pose proof (autoPrune_frame oracle (set_stdin (tl (stdin w)) w)) as [(Hn & Hp & Hd) _].
  assert (Hne : history (autoPrune oracle (set_stdin (tl (stdin w)) w)) <> []).
  { rewrite autoPrune_history. cbn. destruct (pruneEnabled w); [|done].
    unfold pruneHistory. destruct (length (history w) <=? 30)%nat; [done|].
    unfold callOpenAI. by cbn. }
  set (wa := autoPrune oracle (set_stdin (tl (stdin w)) w)) in *.
  unfold boot, readLine.
  assert (Hr : (match stdin (processStart input (oracleLog (saveGame (history wa) wa))
                               (draws (saveGame (history wa) wa))
                               (disk (saveGame (history wa) wa))) with
                | l :: r => (l, set_stdin r (processStart input
                               (oracleLog (saveGame (history wa) wa))
                               (draws (saveGame (history wa) wa))
                               (disk (saveGame (history wa) wa))))
                | [] => ("", processStart input (oracleLog (saveGame (history wa) wa))
                               (draws (saveGame (history wa) wa))
                               (disk (saveGame (history wa) wa)))
                end) = (hd "" input, processStart (tl input)
                               (oracleLog (saveGame (history wa) wa))
                               (draws (saveGame (history wa) wa))
                               (disk (saveGame (history wa) wa))))
    by (by destruct input).
  rewrite Hr. clear Hr. rewrite H2. rewrite decide_True by done.
  unfold loadGame. cbn.
  destruct (history wa) eqn:Eh; [done|]. cbn. by rewrite Hn, Hp.
Qed.

Lemma save_restart_load_witness :
  let w := set_stdin ["save"] (worldOf (seleneSession 1)) in
  let w1 := worldOf (step seleneOracle (constEntropy 1) w) in
  sceneDescriptions w <> ∅
  /\ boot seleneOracle (constEntropy 1)
          (processStart ["2"] (oracleLog w1) (draws w1) (disk w1))
     = Next (mkWorld (npcData w) ∅ ∅ (playerState w) (history w1) true []
               (oracleLog w1) (draws w1) (disk w1)).
Proof.
  cbn zeta. split.
  - vm_compute. discriminate.
  - apply (save_restart_load seleneOracle (constEntropy 1)
             (set_stdin ["save"] (worldOf (seleneSession 1)))
             (worldOf (step seleneOracle (constEntropy 1)
                         (set_stdin ["save"] (worldOf (seleneSession 1)))))
             ["2"]).
    + vm_compute. reflexivity.
    + vm_compute. discriminate.
    + vm_compute. reflexivity.
    + reflexivity.
Defined.

(** ** Rolls in the game *)

(** X10: In every state the game loop can reach, a roll on one of the six
    attributes (named in any letter case) draws one die and prints a
    modifier from -1 to 4 and a total from 0 to 24; a roll on any other
    name prints the unknown-stat line, draws no die and changes nothing. *)
Theorem roll_in_game oracle entropy w cmd verb name rest :
  reachable oracle entropy w ->
  Fields cmd = verb :: name :: rest ->
  (ToUpper name ∈ statNames ->
   exists modifier total check w',
     doRoll entropy cmd w = (Rolled modifier total check, w')
     /\ (-1 <= modifier <= 4)%Z /\ (0 <= total <= 24)%Z
     /\ w' = set_draws (S (draws w)) w)
  /\ (ToUpper name ∉ statNames -> doRoll entropy cmd w = (UnknownStat (ToUpper name), w)).
Proof.
  intros Hr Hf. pose proof (reachable_stats oracle entropy w Hr (ToUpper name)) as Hs.
  unfold doRoll. rewrite Hf. cbn [length Nat.leb nth].
  destruct (Stats (playerState w) !! ToUpper name) as [v|]; split; intros Hin;
    try (by destruct Hs); try done.
  destruct Hs as [_ Hv]. unfold Intn. cbn.
  pose proof (Z.mod_pos_bound (entropy (draws w)) 20 ltac:(lia)) as Hd.
  rewrite (wrap64_id (v - 10)) by (unfold isInt64; lia).
  rewrite (wrap64_id (_ + 1)) by (unfold isInt64; lia).
  assert (Hm : (-1 <= Z.quot (v - 10) 2 <= 4)%Z).
  { destruct (Z.le_gt_cases 10 v).
    - rewrite Z.quot_div_nonneg by lia.
      pose proof (Z.div_pos (v - 10) 2 ltac:(lia) ltac:(lia)).
      assert ((v - 10) / 2 < 5)%Z by (apply Z.div_lt_upper_bound; lia). lia.
    - assert (v = 8 \/ v = 9)%Z as [-> | ->] by lia; vm_compute; split; discriminate. }
  rewrite (wrap64_id (_ + Z.quot _ _)) by (unfold isInt64; lia).
  eexists _, _, _, _. split; [reflexivity|]. split_and!; try done; lia.
Qed.

Lemma roll_in_game_witness :
  exists modifier total check w',
    doRoll (constEntropy 1) "roll cha 12" (worldOf (seleneSession 2))
    = (Rolled modifier total check, w')
    /\ (-1 <= modifier <= 4)%Z /\ (0 <= total <= 24)%Z
    /\ w' = set_draws (S (draws (worldOf (seleneSession 2)))) (worldOf (seleneSession 2)).
Proof.
  refine (proj1 (roll_in_game seleneOracle (constEntropy 1) (worldOf (seleneSession 2))
                   "roll cha 12" "roll" "cha" ["12"] _ eq_refl) _).
  - apply (seleneSession_reachable 2). vm_compute. reflexivity.
  - vm_compute. repeat constructor.
Defined.

(** ** More on personas and conversations *)

Lemma append_nonempty a c r : a +:+ String c r <> "".
Proof. by destruct a. Qed.

(** X18: A persona is never left blank: whatever the reply, the record that
    [ensureNpc] registers for a new name has a bio and a backstory that are
    not empty, and affinity 0. *)
Theorem persona_never_blank oracle npcName w :
  npcData w !! npcName = None ->
  exists info,
    npcData (ensureNpc oracle npcName w) !! npcName = Some info
    /\ Bio info <> "" /\ Backstory info <> "" /\ Affinity info = 0%Z.
Proof.
  intros H. unfold ensureNpc. rewrite H. unfold callOpenAI. cbn.
  rewrite lookup_insert_eq. eexists. split; [reflexivity|].
  unfold parsePersona. destruct (scanPersona _) as [bio backstory].
  destruct (decide (bio = "")), (decide (backstory = "")); cbn; split_and!;
    try done; apply append_nonempty.
Qed.

Lemma persona_never_blank_witness :
  exists info,
    npcData (ensureNpc (cannedOracle ["I do not know."]) "Selene"
               (processStart [] [] 0 None)) !! "Selene" = Some info
    /\ Bio info <> "" /\ Backstory info <> "" /\ Affinity info = 0%Z.
Proof.
  apply (persona_never_blank (cannedOracle ["I do not know."]) "Selene"
           (processStart [] [] 0 None)).
  reflexivity.
Defined.

Lemma convLoop_calls oracle lines : forall conv w w',
  convLoop oracle conv lines w = Some w' ->
  exists used,
    lines = used ++ stdin w'
    /\ length (oracleLog w')
       = (length (oracleLog w) + length (filter (fun l => TrimSpace l <> "") used))%nat.
Proof.
  induction lines as [|raw rest IH]; intros conv w w' H; [discriminate|].
  cbn [convLoop] in H. destruct (decide (TrimSpace raw = "")) as [Hb|Hb].
  - apply IH in H as (used & -> & ->). exists (raw :: used). split; [done|].
    by rewrite filter_cons_False by (by intros ?).
  - destruct (isFarewell _).
    + unfold callOpenAI in H. cbn in H. injection H as <-. cbn.
      exists [raw]. split; [done|]. rewrite filter_cons_True by done.
      rewrite length_app. cbn. lia.
    + unfold callOpenAI in H. cbn [fst snd] in H.
      apply IH in H as (used & -> & ->). exists (raw :: used). split; [done|].
      rewrite filter_cons_True by done. cbn. rewrite length_app. cbn. lia.
Qed.

(** X19: A conversation is a session of its own.  When it returns, the history,
    the player state, the scene and item descriptions, the save file and
    the records of the other NPCs are as they were, and the chat API was
    called once for every line typed that was not blank, and once more when
    the persona had to be created. *)
Theorem conversation_is_separate oracle npcName w w' :
  startConversation oracle npcName w = Next w' ->
  history w' = history w /\ playerState w' = playerState w
  /\ sceneDescriptions w' = sceneDescriptions w /\ itemsData w' = itemsData w
  /\ disk w' = disk w
  /\ (forall m, m <> npcName -> npcData w' !! m = npcData w !! m)
  /\ exists used,
       stdin w = used ++ stdin w'
       /\ length (oracleLog w')
          = (length (oracleLog w)
             + (if npcData w !! npcName is Some _ then 0 else 1)
             + length (filter (fun l => TrimSpace l <> "") used))%nat.
Proof.
  intros H.
  pose proof (startConversation_history _ _ _ _ H) as (Hh & Hsc & Hit & _).
  pose proof (startConversation_effect _ _ _ _ H) as (Hp & Hd & Ho & _).
  split_and!; try done.
  unfold startConversation in H.
  assert (Hl : length (oracleLog (ensureNpc oracle npcName w))
               = (length (oracleLog w) + (if npcData w !! npcName is Some _ then 0 else 1))%nat
               /\ stdin (ensureNpc oracle npcName w) = stdin w).
  { unfold ensureNpc. destruct (npcData w !! npcName); [split; [lia|done]|].
    unfold callOpenAI. cbn. rewrite length_app. cbn. done. }
  destruct Hl as [Hl Hs]. rewrite <- Hl, <- Hs.
  destruct (npcData (ensureNpc oracle npcName w) !! npcName); [|discriminate].
  destruct (convLoop _ _ _ _) as [w2|] eqn:E; [|discriminate].
  injection H as <-. cbn. by apply convLoop_calls in E.
Qed.

Lemma conversation_is_separate_witness :
  exists w', startConversation (cannedOracle []) "Selene"
               (set_stdin ["hello"; " "; "bye"; "look"] talkWorld) = Next w'
             /\ history w' = history talkWorld /\ stdin w' = ["look"].
Proof.
  eexists. split; [reflexivity|].
  split.
  - refine (proj1 (conversation_is_separate (cannedOracle []) "Selene"
                     (set_stdin ["hello"; " "; "bye"; "look"] talkWorld) _ _)).
    reflexivity.
  - reflexivity.
Defined.

(** ** Moving *)

Lemma TrimSpace_last s c : lastS (TrimSpace s) = Some c -> isSpace c = false.
Proof.
  unfold TrimSpace.
  destruct (trimRightBy_split isSpace (trimLeftBy isSpace s)) as (r & _ & _ & H).
  apply H.
Qed.




Lemma toLowerChar_space a : toLowerChar a = " "%char -> a = " "%char.
Proof.
  destruct a as [[] [] [] [] [] [] [] []]; vm_compute; congruence.
Qed.






(** ** Text normalisation *)

Lemma allS_app f a b : allS f (a +:+ b) = allS f a && allS f b.
Proof.
  induction a as [|c a IH]; [done|]. rewrite append_String. cbn.
  rewrite IH. by destruct (f c).
Qed.

Lemma Split_noByte s sep : Forall (fun x => noByte sep x = true) (Split s sep).
Proof.
  induction s as [|c s IH]; cbn [Split]; [by repeat constructor|].
  destruct (decide (c = sep)); [by constructor|].
  destruct (Split s sep) as [|h t]; [repeat constructor|].
  - unfold noByte. cbn. by rewrite bool_decide_true.
  - apply Forall_cons in IH as [Hh Ht]. constructor; [|done].
    unfold noByte in *. cbn. by rewrite bool_decide_true.
Qed.

Lemma Split_keeps_noByte c s sep :
  noByte c s = true -> Forall (fun x => noByte c x = true) (Split s sep).
Proof.
  induction s as [|d s IH]; cbn [Split]; [by repeat constructor|].
  unfold noByte in *. cbn [allS]. intros [Hd Hs]%andb_prop. specialize (IH Hs).
  destruct (decide (d = sep)); [by constructor|].
  destruct (Split s sep) as [|h t]; [repeat constructor; cbn; by rewrite Hd|].
  apply Forall_cons in IH as [Hh Ht]. constructor; [|done]. cbn. by rewrite Hd.
Qed.

Lemma Split_single x sep : noByte sep x = true -> Split x sep = [x].
Proof.
  induction x as [|c x IH]; [done|]. unfold noByte in *. cbn [allS Split].
  intros [Hc Hx]%andb_prop. apply bool_decide_eq_true in Hc.
  rewrite decide_False by done. by rewrite IH.
Qed.

Lemma Split_app_sep x rest sep :
  noByte sep x = true -> Split (x +:+ String sep rest) sep = x :: Split rest sep.
Proof.
  induction x as [|c x IH].
  - intros _. rewrite append_empty. cbn [Split]. by rewrite decide_True.
  - unfold noByte in *. cbn [allS]. intros [Hc Hx]%andb_prop.
    apply bool_decide_eq_true in Hc. rewrite append_String. cbn [Split].
    rewrite decide_False by done. by rewrite IH.
Qed.

Lemma Join_cons x y l sep : Join (x :: y :: l) sep = x +:+ sep +:+ Join (y :: l) sep.
Proof. reflexivity. Qed.

Lemma Split_Join l :
  l <> [] -> Forall (fun x => noByte LF x = true) l -> Split (Join l nl) LF = l.
Proof.
  induction l as [|x l IH]; [done|]. intros _ [Hx Hl]%Forall_cons.
  destruct l as [|y l]; [by apply Split_single|].
  rewrite Join_cons. unfold nl at 1. rewrite append_String, append_empty.
  rewrite Split_app_sep by done. by rewrite IH.
Qed.

Lemma removeByte_noByte c s : noByte c (removeByte c s) = true.
Proof.
  induction s as [|d s IH]; [done|]. cbn [removeByte].
  destruct (decide (d = c)); [done|]. unfold noByte in *. cbn.
  by rewrite bool_decide_true.
Qed.

Lemma removeByte_id c s : noByte c s = true -> removeByte c s = s.
Proof.
  induction s as [|d s IH]; [done|]. unfold noByte in *. cbn [allS removeByte].
  intros [Hd Hs]%andb_prop. apply bool_decide_eq_true in Hd.
  rewrite decide_False by done. by rewrite IH.
Qed.

Lemma noByte_Join c l sep :
  Forall (fun x => noByte c x = true) l -> noByte c sep = true ->
  noByte c (Join l sep) = true.
Proof.
  intros Hl Hsep. induction Hl as [|x l Hx Hl IH]; [done|].
  destruct l as [|y l]; [done|]. rewrite Join_cons. unfold noByte in *.
  rewrite !allS_app, Hx, Hsep. exact IH.
Qed.

Lemma dropBlank_head l : headNotBlank (dropBlank l).
Proof.
  induction l as [|x l IH]; [done|]. cbn [dropBlank]. by destruct (isBlank x) eqn:E.
Qed.

Lemma dropBlank_id l : headNotBlank l -> dropBlank l = l.
Proof.
  destruct l as [|x l]; [done|]. cbn [headNotBlank dropBlank]. intros Hx. by rewrite Hx.
Qed.

Lemma dropBlank_Forall (P : string -> Prop) l : Forall P l -> Forall P (dropBlank l).
Proof.
  induction 1 as [|x l Hx Hl IH]; [done|]. cbn [dropBlank].
  destruct (isBlank x); [done|by constructor].
Qed.

Lemma dropBlank_snoc a x : isBlank x = false -> dropBlank (a ++ [x]) = dropBlank a ++ [x].
Proof.
  intros Hx. induction a as [|h a IH]; cbn [app dropBlank]; [by rewrite Hx|].
  by destruct (isBlank h).
Qed.

Lemma trimEnd_head l : headNotBlank l -> headNotBlank (rev (dropBlank (rev l))).
Proof.
  destruct l as [|x t]; [done|]. cbn [headNotBlank rev]. intros Hx.
  rewrite dropBlank_snoc by done. by rewrite rev_app_distr.
Qed.

Lemma fold_collapse lines : forall out blank,
  fst (fold_left (fun '(out, blank) line =>
                    if isBlank line
                    then ((if blank : bool then out else out ++ [""]), true)
                    else (out ++ [line], false))
                 lines (out, blank))
  = out ++ collapseFrom blank lines.
Proof.
  induction lines as [|l lines IH]; intros out blank; cbn [fold_left collapseFrom].
  - by rewrite app_nil_r.
  - destruct (isBlank l); [destruct blank|]; rewrite IH; by rewrite <- ?app_assoc.
Qed.

Lemma collapse_idem l : forall b, collapseFrom b (collapseFrom b l) = collapseFrom b l.
Proof.
  induction l as [|x l IH]; intros b; [done|]. cbn [collapseFrom].
  destruct (isBlank x) eqn:Ex; [destruct b|].
  - apply IH.
  - cbn [collapseFrom]. change (isBlank "") with true. cbn. by rewrite IH.
  - cbn [collapseFrom]. by rewrite Ex, IH.
Qed.

Lemma collapse_Forall (P : string -> Prop) l b :
  P "" -> Forall P l -> Forall P (collapseFrom b l).
Proof.
  intros H0 Hl. revert b. induction Hl as [|x l Hx Hl IH]; intros b; [done|].
  cbn [collapseFrom]. destruct (isBlank x); [destruct b|]; try constructor; auto.
Qed.

Lemma collapse_snoc a x : forall b,
  isBlank x = false -> collapseFrom b (a ++ [x]) = collapseFrom b a ++ [x].
Proof.
  induction a as [|h a IH]; intros b Hx; cbn [app collapseFrom]; [by rewrite Hx|].
  destruct (isBlank h); [destruct b|]; by rewrite IH.
Qed.

Lemma collapse_head l b : headNotBlank l -> headNotBlank (collapseFrom b l).
Proof.
  destruct l as [|x l]; [done|]. cbn [headNotBlank collapseFrom]. intros Hx.
  by rewrite Hx.
Qed.

Lemma collapse_last l b :
  headNotBlank (rev l) -> headNotBlank (rev (collapseFrom b l)).
Proof.
  destruct (rev l) as [|x m] eqn:E.
  - apply (f_equal (@rev _)) in E. rewrite rev_involutive in E. by subst.
  - apply (f_equal (@rev _)) in E. rewrite rev_involutive in E. subst l. cbn [rev headNotBlank].
    intros Hx. rewrite collapse_snoc by done. by rewrite rev_app_distr.
Qed.

Lemma normalizeText_lines text : normalizeText text = Join (normalLines text) nl.
Proof.
  unfold normalizeText, normalLines.
  pose proof (fold_collapse
                (rev (dropBlank (rev (dropBlank (Split (removeByte CR text) LF))))) [] false)
    as H.
  destruct (fold_left _ _ _) as [out b]. cbn [fst app] in H. by subst.
Qed.

Lemma normalLines_fixed l :
  Forall (fun x => noByte LF x = true /\ noByte CR x = true) l ->
  headNotBlank l -> headNotBlank (rev l) -> collapseFrom false l = l ->
  normalLines (Join l nl) = l.
Proof.
  intros Hc Hh Hr Hcol. unfold normalLines.
  rewrite removeByte_id.
  2:{ apply noByte_Join; [|done]. eapply Forall_impl; [exact Hc|]. by intros ? [_ ?]. }
  destruct (decide (l = [])) as [->|Hne]; [done|].
  rewrite Split_Join; [|done|eapply Forall_impl; [exact Hc|]; by intros ? [? _]].
  rewrite (dropBlank_id l) by done. rewrite (dropBlank_id (rev l)) by done.
  by rewrite rev_involutive.
Qed.

(** X1: [normalizeText] leaves no carriage return in the text, and a text it
    has produced is left as it is when normalised again. *)
Theorem normalizeText_idempotent text :
  normalizeText (normalizeText text) = normalizeText text
  /\ noByte CR (normalizeText text) = true.
Proof.
  rewrite !normalizeText_lines.
  set (l0 := Split (removeByte CR text) LF).
  assert (H0 : Forall (fun x => noByte LF x = true /\ noByte CR x = true) l0).
  { apply Forall_and. split; [apply Split_noByte|].
    apply Split_keeps_noByte, removeByte_noByte. }
  assert (Hc : Forall (fun x => noByte LF x = true /\ noByte CR x = true) (normalLines text)).
  { unfold normalLines. fold l0. apply collapse_Forall; [done|].
    apply Forall_rev, dropBlank_Forall, Forall_rev, dropBlank_Forall, H0. }
  assert (Hh : headNotBlank (normalLines text)).
  { apply collapse_head, trimEnd_head, dropBlank_head. }
  assert (Hr : headNotBlank (rev (normalLines text))).
  { apply collapse_last. rewrite rev_involutive. apply dropBlank_head. }
  assert (Hi : collapseFrom false (normalLines text) = normalLines text)
    by apply collapse_idem.
  split.
  - by rewrite normalLines_fixed.
  - apply noByte_Join; [|done]. eapply Forall_impl; [exact Hc|]. by intros ? [_ ?].
Qed.

(** ** Entries of the environment lists *)

Lemma trim_noByte c f s :
  noByte c s = true -> noByte c (trimRightBy f (trimLeftBy f s)) = true.
Proof.
  intros H.
  destruct (trimLeftBy_split f s) as (l & Hs & _).
  destruct (trimRightBy_split f (trimLeftBy f s)) as (r & Hm & _).
  unfold noByte in *. rewrite Hs, Hm, !allS_app in H.
  apply andb_prop in H as [_ H]. by apply andb_prop in H as [H _].
Qed.

(** X4: Every entry of a parsed list is usable as a name: it is not empty, it is
    not "none" in any letter case, it holds no comma, and it neither starts
    nor ends with one of the punctuation marks . ! ? : ; *)
Theorem parseList_entries raw name :
  name ∈ parseList raw ->
  name <> "" /\ ToLower name <> "none" /\ noByte ","%char name = true
  /\ (forall c, headS name = Some c -> inCutset punctuation c = false)
  /\ (forall c, lastS name = Some c -> inCutset punctuation c = false).
Proof.
  rewrite parseList_filter_map. intros H%list_elem_of_In.
  apply filter_In in H as [Hin Hkeep].
  apply in_map_iff in Hin as (p & <- & Hp%list_elem_of_In).
  unfold keepName in Hkeep. apply andb_prop in Hkeep as [H1 H2].
  apply bool_decide_eq_true in H1. apply bool_decide_eq_true in H2.
  split_and!; try done.
  - unfold cleanToken, Trim, TrimSpace. apply trim_noByte, trim_noByte.
    pose proof (Split_noByte raw ","%char) as Hall.
    by apply (proj1 (Forall_forall _ _) Hall).
  - by destruct (Trim_split (TrimSpace p) punctuation) as (_ & _ & _ & _ & _ & Hh & _).
  - by destruct (Trim_split (TrimSpace p) punctuation) as (_ & _ & _ & _ & _ & _ & Hl).
Qed.

Lemma parseList_entries_witness :
  "Shield" <> "" /\ ToLower "Shield" <> "none" /\ noByte ","%char "Shield" = true.
Proof.
  assert (H : "Shield" ∈ parseList "Sword, , Shield!, none").
  { apply list_elem_of_further, list_elem_of_here. }
  destruct (parseList_entries "Sword, , Shield!, none" "Shield" H) as (H1 & H2 & H3 & _).
  done.
Defined.

(** ** Membership *)

(** X3: [contains] answers whether the string is an element of the slice. *)
Theorem contains_correct (slice : list string) (s : string) :
  (contains slice s = true <-> s ∈ slice) /\ (contains slice s = false <-> s ∉ slice).
Proof.
  assert (Ht : forall l : list string, contains l s = true <-> s ∈ l).
  { induction l as [|v l IH]; cbn [contains].
    - split; [done|]. by intros ?%elem_of_nil.
    - destruct (decide (v = s)) as [->|Hne].
      + split; [|done]. intros _. apply list_elem_of_here.
      + rewrite IH, elem_of_cons. intuition congruence. }
  split; [apply Ht|]. rewrite <- Ht. by destruct (contains slice s).
Qed.

(** ** Title case *)























(** ** Drawing the map *)

Lemma neighbours_elem (g : gmap string (gmap string bool)) (node c : string) :
  c ∈ neighbours g node <-> exists m, g !! node = Some m /\ is_Some (m !! c).
Proof.
  unfold neighbours, sortStrings. rewrite merge_sort_Permutation.
  rewrite list_elem_of_fmap. split.
  - intros ([k v] & -> & H%elem_of_map_to_list). cbn.
    destruct (g !! node) as [m|]; cbn in H; [eauto|]. by rewrite lookup_empty in H.
  - intros (m & -> & [v Hv]). exists (c, v). split; [done|].
    by apply elem_of_map_to_list.
Qed.

Lemma allNeighbours_elem (g : gmap string (gmap string bool)) (c : string) :
  c ∈ allNeighbours g <-> exists a m, g !! a = Some m /\ is_Some (m !! c).
Proof.
  unfold allNeighbours. rewrite elem_of_union_list. split.
  - intros (X & HX & Hc). apply list_elem_of_fmap in HX as (m & -> & Hm).
    apply list_elem_of_fmap in Hm as ([a m'] & -> & Ham%elem_of_map_to_list).
    apply elem_of_dom in Hc. eauto.
  - intros (a & m & Ham & Hc). exists (dom m). split; [|by apply elem_of_dom].
    apply list_elem_of_fmap. exists m. split; [done|].
    apply list_elem_of_fmap. exists (a, m). split; [done|].
    by apply elem_of_map_to_list.
Qed.

Section DrawMap.

Variable g : gmap string (gmap string bool).
Variable U : gset string.
Hypothesis U_closed : forall c, c ∈ allNeighbours g -> c ∈ U.

Lemma drawChildren_enough rec n (seen : gset string) (k : nat) :
  (forall c last v o,
     c ∈ U -> v ⊆ U -> (size (U ∖ ({[c]} ∪ v)) < k)%nat ->
     exists v' o', rec c last v o = Some (v', o') /\ {[c]} ∪ v ⊆ v' /\ v' ⊆ U
                   /\ exists rest, o' = o ++ rest) ->
  (size (U ∖ seen) <= k)%nat ->
  forall cs i v o,
    Forall (fun c => c ∈ U /\ c ∉ seen) cs -> seen ⊆ v -> v ⊆ U ->
    exists v' o', drawChildren rec n cs i v o = Some (v', o') /\ v ⊆ v' /\ v' ⊆ U
                  /\ exists rest, o' = o ++ rest.
Proof.
  intros Hrec Hsize. induction cs as [|c cs IH]; intros i v o Hcs Hsv HvU.
  - cbn. eexists _, _. split_and!; try done. exists []. by rewrite app_nil_r.
  - apply Forall_cons in Hcs as [[HcU Hc] Hcs]. cbn [drawChildren].
    destruct (Hrec c (bool_decide (i = (n - 1)%nat)) v o)
      as (v1 & o1 & -> & Hsub & HU & r1 & ->); [done|done| |].
    + apply Nat.lt_le_trans with (size (U ∖ seen)); [|done].
      apply subset_size. split.
      * intros x [Hx Hn]%elem_of_difference. apply elem_of_difference. split; [done|].
        intros Hs. apply Hn, elem_of_union. right. by apply Hsv.
      * intros Hsub. assert (Hin : c ∈ U ∖ ({[c]} ∪ v)).
        { apply Hsub, elem_of_difference. done. }
        apply elem_of_difference in Hin as [_ Hin]. apply Hin, elem_of_union. left.
        by apply elem_of_singleton.
    + destruct (IH (S i) v1 (o ++ r1)) as (v' & o' & -> & Hv' & HU' & r2 & ->); [done| |done|].
      * intros x Hx. apply Hsub, elem_of_union. right. by apply Hsv.
      * eexists _, _. split; [done|]. split_and!; [|done|].
        -- intros x Hx. apply Hv', Hsub, elem_of_union. by right.
        -- exists (r1 ++ r2). by rewrite app_assoc.
Qed.

Lemma drawMap_enough fuel : forall node parent prefix isLast visited out,
  node ∈ U -> default ∅ visited ⊆ U ->
  (size (U ∖ ({[node]} ∪ default ∅ visited)) < fuel)%nat ->
  exists v' rest,
    drawMap fuel g node parent prefix isLast visited out
    = Some (v', out ++ (prefix +:+ match visited with
                                    | None => node
                                    | Some _ => (if isLast then "└─ " else "├─ ") +:+ node
                                    end) :: rest)
    /\ {[node]} ∪ default ∅ visited ⊆ v' /\ v' ⊆ U.
Proof.
  induction fuel as [|k IH]; intros node parent prefix isLast visited out Hn Hv Hsize; [lia|].
  cbn [drawMap].
  set (seen := {[node]} ∪ default ∅ visited) in *.
  assert (Hseen : seen ⊆ U).
  { intros x [->%elem_of_singleton|Hx]%elem_of_union; [done|by apply Hv]. }
  assert (Hgo : forall line,
    exists v' rest,
      drawChildren
        (fun child last v o =>
           drawMap k g child node (prefix +:+ (if isLast then "   " else "│  ")) last (Some v) o)
        (length (filter (fun c => c <> parent /\ c ∉ seen) (neighbours g node)))
        (filter (fun c => c <> parent /\ c ∉ seen) (neighbours g node)) 0 seen (out ++ [line])
      = Some (v', out ++ line :: rest)
      /\ seen ⊆ v' /\ v' ⊆ U).
  { intros line.
    assert (Hcs : Forall (fun c => c ∈ U /\ c ∉ seen)
                    (filter (fun c => c <> parent /\ c ∉ seen) (neighbours g node))).
    { apply Forall_forall. intros c Hc. apply list_elem_of_filter in Hc as [[_ Hc] Hin].
      split; [|exact Hc]. apply U_closed, allNeighbours_elem.
      apply neighbours_elem in Hin as (m & Hm & Hc'). eauto. }
    destruct (drawChildren_enough
                (fun child last v o =>
                   drawMap k g child node (prefix +:+ (if isLast then "   " else "│  "))
                     last (Some v) o)
                (length (filter (fun c => c <> parent /\ c ∉ seen) (neighbours g node)))
                seen k) with (cs := filter (fun c => c <> parent /\ c ∉ seen) (neighbours g node))
                             (i := 0%nat) (v := seen) (o := out ++ [line])
      as (v' & out' & Hd & Hs1 & Hs2 & rest & ->); try done.
    - intros c last v o Hc HvU Hsz.
      destruct (IH c node (prefix +:+ (if isLast then "   " else "│  ")) last (Some v) o)
        as (v1 & r1 & H1 & H2 & H3); [done|done|done|]. eauto 10.
    - lia.
    - exists v', rest. rewrite Hd. by rewrite <- app_assoc. }
  destruct visited as [v|].
  - destruct (Hgo (prefix +:+ (if isLast then "└─ " else "├─ ") +:+ node))
      as (v' & rest & Hd & H1 & H2).
    exists v', rest. split; [exact Hd|done].
  - destruct (Hgo (prefix +:+ node)) as (v' & rest & Hd & H1 & H2).
    exists v', rest. split; [|done]. rewrite <- Hd. unfold seen. cbn [default].
    by rewrite (right_id_L ∅ (∪) ({[node]} : gset string)).
Qed.

End DrawMap.

Lemma drawChildren_mono rec rec' n :
  (forall c l v o r, rec c l v o = Some r -> rec' c l v o = Some r) ->
  forall cs i v o r,
    drawChildren rec n cs i v o = Some r -> drawChildren rec' n cs i v o = Some r.
Proof.
  intros Hrec. induction cs as [|c cs IH]; intros i v o r; [done|].
  cbn [drawChildren]. destruct (rec c _ v o) as [[v1 o1]|] eqn:E; [|discriminate].
  rewrite (Hrec _ _ _ _ _ E). apply IH.
Qed.

Lemma drawMap_more_fuel g fuel : forall extra node parent prefix isLast visited out r,
  drawMap fuel g node parent prefix isLast visited out = Some r ->
  drawMap (fuel + extra) g node parent prefix isLast visited out = Some r.
Proof.
  induction fuel as [|k IH]; intros extra node parent prefix isLast visited out r;
    [discriminate|].
  cbn [drawMap Nat.add]. destruct (match visited with None => _ | Some v => _ end) as [v1 o1].
  apply drawChildren_mono. intros c l v o r'. apply IH.
Qed.

(** X21: [drawMap] returns on every graph, cycles included: a depth of one more
    than the number of names in the graph is enough, and a greater depth
    gives the same lines.  The first line is the root, and the nodes marked
    as visited are the root and names of the graph. *)
Theorem drawMap_returns (g : gmap string (gmap string bool)) (node : string) :
  exists visited rest,
    (forall extra,
       drawMap (S (size ({[node]} ∪ allNeighbours g)) + extra) g node "" "" true None []
       = Some (visited, node :: rest))
    /\ node ∈ visited
    /\ visited ⊆ {[node]} ∪ allNeighbours g.
Proof.
  destruct (drawMap_enough g ({[node]} ∪ allNeighbours g)
              ltac:(intros c Hc; apply elem_of_union; by right)
              (S (size ({[node]} ∪ allNeighbours g))) node "" "" true None [])
    as (v & rest & Hd & Hsub & HU).
  - apply elem_of_union. left. by apply elem_of_singleton.
  - cbn. apply empty_subseteq.
  - apply Nat.lt_succ_r, subseteq_size. intros x [Hx _]%elem_of_difference. exact Hx.
  - exists v, rest. split; [|split; [|exact HU]].
    + intros extra. by apply drawMap_more_fuel.
    + apply Hsub, elem_of_union. left. by apply elem_of_singleton.
Qed.

(** Drawn from A, the triangle A-B-C shows C twice: under B, where the
    drawing comes to it first, and under A, whose list of children was made
    before. *)
Example drawMap_triangle :
  snd <$> drawMap 4 triangle "A" "" "" true None []
  = Some ["A"; "   ├─ B"; "   │  └─ C"; "   └─ C"].
Proof. vm_compute. reflexivity. Qed.

Lemma append_assoc3 a b c : (a +:+ b) +:+ c = a +:+ (b +:+ c).
Proof. induction a as [|x a IH]; [done|]. by rewrite !append_String, IH. Qed.

Section DrawMapShows.

Variable g : gmap string (gmap string bool).

Lemma drawChildren_post rec n (seen : gset string) :
  forall cs i v o V' o',
    (forall c l v1 o1 V1 o1',
       c ∈ cs -> seen ⊆ v1 -> rec c l v1 o1 = Some (V1, o1') ->
       exists new, o1' = o1 ++ new /\ {[c]} ∪ v1 ⊆ V1 /\ drawn g v1 V1 new) ->
    seen ⊆ v ->
    drawChildren rec n cs i v o = Some (V', o') ->
    exists new, o' = o ++ new /\ v ⊆ V' /\ (forall c, c ∈ cs -> c ∈ V') /\ drawn g v V' new.
Proof.
  induction cs as [|c cs IH]; intros i v o V' o' Hrec Hseen H.
  - cbn in H. injection H as <- <-. exists []. rewrite app_nil_r.
    split; [done|]. split; [done|]. split; [by intros c ?%elem_of_nil|].
    by intros x Hx Hn.
  - cbn [drawChildren] in H.
    destruct (rec c (bool_decide (i = (n - 1)%nat)) v o) as [[V1 o1]|] eqn:E; [|discriminate].
    apply Hrec in E as (new1 & -> & Hs1 & Hd1); [|apply list_elem_of_here|done].
    apply IH in H as (new2 & -> & Hs2 & Hcs & Hd2).
    2:{ intros c' l v1 o1 V2 o2 Hc'. apply Hrec. by apply list_elem_of_further. }
    2:{ intros x Hx. apply Hs1, elem_of_union. right. by apply Hseen. }
    exists (new1 ++ new2). rewrite app_assoc. split_and!; try done.
    + intros x Hx. apply Hs2, Hs1, elem_of_union. by right.
    + intros c' [->|Hc']%elem_of_cons; [|by apply Hcs].
      apply Hs2, Hs1, elem_of_union. left. by apply elem_of_singleton.
    + intros x Hx Hn. destruct (decide (x ∈ V1)) as [H1|H1].
      * destruct (Hd1 x H1 Hn) as [[pre Hp] Hc]. split.
        -- exists pre. apply elem_of_app. by left.
        -- intros y Hy. by apply Hs2, Hc.
      * destruct (Hd2 x Hx H1) as [[pre Hp] Hc]. split; [|done].
        exists pre. apply elem_of_app. by right.
Qed.

Lemma drawMap_post fuel : forall node parent prefix isLast visited out V' out',
  drawMap fuel g node parent prefix isLast visited out = Some (V', out') ->
  parent ∈ default ∅ visited \/ ~ edge g node parent ->
  exists new,
    out' = out ++ new /\ {[node]} ∪ default ∅ visited ⊆ V'
    /\ drawn g (default ∅ visited) V' new.
Proof.
  induction fuel as [|k IH]; intros node parent prefix isLast visited out V' out' H Hpar;
    [discriminate|].
  cbn [drawMap] in H.
  set (seen := {[node]} ∪ default ∅ visited) in *.
  assert (Hgo : forall line,
    (exists pre, line = pre +:+ node) ->
    drawChildren
      (fun child last v o =>
         drawMap k g child node (prefix +:+ (if isLast then "   " else "│  ")) last (Some v) o)
      (length (filter (fun c => c <> parent /\ c ∉ seen) (neighbours g node)))
      (filter (fun c => c <> parent /\ c ∉ seen) (neighbours g node)) 0 seen (out ++ [line])
    = Some (V', out') ->
    exists new, out' = out ++ new /\ seen ⊆ V' /\ drawn g (default ∅ visited) V' new).
  { intros line [pre ->] Hd.
    apply (drawChildren_post _ _ seen) in Hd as (new & -> & Hs & Hcs & Hdr); [| |done].
    2:{ intros c l v1 o1 V1 o1' _ Hsv Hc. apply IH in Hc as (new & -> & Hs & Hdr).
        - exists new. done.
        - left. cbn. apply Hsv, elem_of_union. left. by apply elem_of_singleton. }
    exists ((pre +:+ node) :: new). rewrite <- app_assoc. split_and!; try done.
    intros x Hx Hn. destruct (decide (x ∈ seen)) as [Hseen|Hseen].
    - apply elem_of_union in Hseen as [->%elem_of_singleton|Hseen]; [|done]. split.
      + exists pre. apply list_elem_of_here.
      + intros y Hy. destruct (decide (y ∈ seen)) as [Hys|Hys]; [by apply Hs|].
        destruct (decide (y = parent)) as [->|Hyp].
        * destruct Hpar as [Hpar|Hpar]; [|done].
          apply Hs, elem_of_union. by right.
        * apply Hcs, list_elem_of_filter. split; [done|]. by apply neighbours_elem.
    - destruct (Hdr x Hx Hseen) as [[pre' Hp] Hc]. split; [|done].
      exists pre'. by apply list_elem_of_further. }
  destruct visited as [v|].
  - apply Hgo in H; [done|].
    exists (prefix +:+ (if isLast then "└─ " else "├─ ")). by rewrite append_assoc3.
  - assert (Hseen : seen = {[node]}).
    { unfold seen. cbn [default]. by rewrite (right_id_L ∅ (∪) ({[node]} : gset string)). }
    rewrite <- Hseen in H. apply Hgo in H; [done|]. by exists prefix.
Qed.

End DrawMapShows.

(** X22: [drawMap] shows the whole neighbourhood of the root: when the empty
    string is no neighbour of the root, every place that can be reached
    from the root along edges of the graph is marked as visited and is the
    end of a line of the drawing. *)
Theorem drawMap_shows_connected (g : gmap string (gmap string bool)) (node x : string)
    fuel visited lines :
  ~ edge g node "" ->
  drawMap fuel g node "" "" true None [] = Some (visited, lines) ->
  rtc (edge g) node x ->
  x ∈ visited /\ exists pre, pre +:+ x ∈ lines.
Proof.
  intros Hroot Hd Hpath.
  apply drawMap_post in Hd as (new & -> & Hsub & Hdr); [|by right].
  cbn [default app] in *.
  assert (Hx : x ∈ visited).
  { apply (rtc_ind_r (R := edge g) (fun z => z ∈ visited) node);
      [|clear x Hpath|exact Hpath].
    - apply Hsub, elem_of_union. left. by apply elem_of_singleton.
    - intros b c _ Hbc IH. by apply (Hdr b IH). }
  split; [done|]. by apply (Hdr x Hx).
Qed.

Lemma drawMap_shows_connected_witness :
  exists visited lines,
    drawMap 4 triangle "A" "" "" true None [] = Some (visited, lines)
    /\ "C" ∈ visited /\ exists pre, pre +:+ "C" ∈ lines.
Proof.
  destruct (drawMap 4 triangle "A" "" "" true None []) as [[visited lines]|] eqn:E;
    [|by vm_compute in E].
  exists visited, lines. split; [done|].
  apply (drawMap_shows_connected triangle "A" "C" 4 visited lines).
  - intros (m & Hm & Hk). vm_compute in Hm. injection Hm as <-.
    vm_compute in Hk. by destruct Hk.
  - exact E.
  - apply rtc_once. eexists. split; [vm_compute; reflexivity|]. vm_compute. eauto.
Defined.

(** ** Examining *)

Lemma allS_last f s c : allS f s = true -> lastS s = Some c -> f c = true.
Proof.
  induction s as [|a s IH]; [done|]. cbn [allS]. intros [Ha Hs]%andb_prop.
  destruct s as [|b s']; [by intros [= <-]|]. intros Hl. by apply IH.
Qed.

Lemma lastS_app_r a c r : lastS (a +:+ String c r) = lastS (String c r).
Proof.
  induction a as [|x a IH]; [done|]. rewrite append_String.
  destruct a as [|y a']; [by rewrite append_empty|].
  rewrite append_String in *. exact IH.
Qed.

(** A string whose last byte is not white space does not trim to the empty
    string. *)
Lemma TrimSpace_nonempty s c : lastS s = Some c -> isSpace c = false -> TrimSpace s <> "".
Proof.
  intros Hl Hc Ht. unfold TrimSpace in Ht.
  destruct (trimLeftBy_split isSpace s) as (l & Hs & Hall & _).
  destruct (trimRightBy_split isSpace (trimLeftBy isSpace s)) as (r & Hm & Hr & _).
  rewrite Ht, append_empty in Hm. rewrite Hm in Hs.
  assert (Hsp : allS isSpace s = true) by (by rewrite Hs, allS_app, Hall, Hr).
  pose proof (allS_last _ _ _ Hsp Hl). congruence.
Qed.

Lemma examine_prefix s :
  HasPrefix s "examine " = true ->
  exists r, s = String "e" (String "x" (String "a" (String "m" (String "i"
                  (String "n" (String "e" (String " " r))))))).
Proof.
  unfold HasPrefix. intros H.
  do 8 (destruct s as [|? s]; [discriminate|];
        rewrite prefix_cons in H; destruct (ascii_dec _ _) as [<-|]; [|discriminate]).
  eauto.
Qed.

Lemma examine_rest cmd :
  HasPrefix (ToLower (TrimSpace cmd)) "examine " = true ->
  exists c, lastS (sliceFrom 8 (TrimSpace cmd)) = Some c /\ isSpace c = false.
Proof.
  intros H. apply examine_prefix in H as [r Hr].
  pose proof (TrimSpace_last cmd) as Hlast.
  destruct (TrimSpace cmd) as [|a1 [|a2 [|a3 [|a4 [|a5 [|a6 [|a7 [|a8 t]]]]]]]];
    try discriminate.
  unfold ToLower in Hr. cbn [mapS] in Hr.
  injection Hr as _ _ _ _ _ _ _ H8 _. apply toLowerChar_space in H8 as ->.
  cbn [sliceFrom]. destruct t as [|b t].
  - specialize (Hlast " "%char eq_refl). discriminate.
  - destruct (lastS (String b t)) as [c|] eqn:E.
    + exists c. split; [done|]. apply Hlast. exact E.
    + exfalso. clear -E. revert b E. induction t as [|b' t IH]; intros b E; [discriminate|].
      by apply (IH b').
Qed.

Lemma step_examine oracle entropy w :
  HasPrefix (ToLower (nextCmd w)) "examine " = true ->
  step oracle entropy w
  = let target := TrimSpace (sliceFrom 8 (nextCmd w)) in
    let w1 := autoPrune oracle (set_stdin (tl (stdin w)) w) in
    if decide (target = "") then Next w1 else Next (doExamine oracle target (nextCmd w) w1).
Proof.
  unfold nextCmd, step, readLine. intros H.
  destruct (stdin w) as [|raw rest] eqn:Hin; [discriminate|]. cbn [hd tl] in *.
  cbn zeta. unfold firstPrefix. cbn [List.find]. rewrite H.
  apply examine_prefix in H as [r Hr].
  destruct (decide (TrimSpace raw = "")) as [Hb|_]; [by rewrite Hb in Hr|].
  rewrite Hr. repeat skip_test. reflexivity.
Qed.

(** X14: An "examine" turn: the target, the rest of the line, is not empty; the
    narrator's answer is appended to the history after the command and kept
    as the description of the target; the journal gets the one entry
    "Examined <target>."; the places, the stats, the registry and the save
    file are as they were. *)
Theorem examine_turn oracle entropy w :
  HasPrefix (ToLower (nextCmd w)) "examine " = true ->
  let target := TrimSpace (sliceFrom 8 (nextCmd w)) in
  exists w' desc,
    step oracle entropy w = Next w'
    /\ target <> ""
    /\ itemsData w' !! target = Some desc
    /\ history w'
       = history (autoPrune oracle (set_stdin (tl (stdin w)) w))
         ++ [user (nextCmd w); assistant desc]
    /\ playerState w'
       = set_Journal (Journal (playerState w) ++ ["Examined " +:+ target +:+ "."])
           (playerState w)
    /\ npcData w' = npcData w /\ disk w' = disk w
    /\ sceneDescriptions w' = sceneDescriptions w.
Proof.
  intros H target.
  pose proof (autoPrune_frame oracle (set_stdin (tl (stdin w)) w)) as [(Hn & Hp & Hd) _].
  pose proof (autoPrune_keeps oracle (set_stdin (tl (stdin w)) w)) as (Hsc & _).
  cbn in Hn, Hp, Hd, Hsc.
  assert (Hne : target <> "").
  { unfold target, nextCmd in *. destruct (stdin w) as [|raw rest]; [discriminate|].
    cbn [hd] in *. destruct (examine_rest raw H) as (c & Hl & Hc).
    by eapply TrimSpace_nonempty. }
  eexists _, _. split.
  { rewrite step_examine by done. cbn zeta. fold target. by rewrite decide_False. }
  unfold doExamine, callOpenAI. cbn.
  rewrite Hp, Hn, Hd, Hsc, lookup_insert_eq, <- app_assoc. done.
Qed.

Lemma examine_turn_witness :
  exists w' desc,
    step seleneOracle (constEntropy 1)
         (set_stdin ["Examine  the Old Door "] (worldOf (seleneSession 1))) = Next w'
    /\ itemsData w' !! "the Old Door" = Some desc
    /\ Journal (playerState w') = ["Examined the Old Door."].
Proof.
  destruct (examine_turn seleneOracle (constEntropy 1)
              (set_stdin ["Examine  the Old Door "] (worldOf (seleneSession 1))) eq_refl)
    as (w' & desc & Hs & _ & Hi & _ & Hp & _).
  exists w', desc. split_and!; [done|done|]. by rewrite Hp.
Defined.

(** ** Pruning twice *)

(** X5: A history that [pruneHistory] has returned is returned unchanged, and
    without a call to the chat API, when it is pruned again. *)
Theorem pruneHistory_idempotent oracle msgs w w' :
  pruneHistory oracle (fst (pruneHistory oracle msgs w)) w'
  = (fst (pruneHistory oracle msgs w), w').
Proof.
  pose proof (pruneHistory_length oracle msgs w) as H.
  unfold pruneHistory at 1.
  destruct (Nat.leb_spec (length (fst (pruneHistory oracle msgs w))) 30); [done|lia].
Qed.

(** ** Turns that end *)

Lemma convLoop_hangs oracle lines : forall conv w,
  convLoop oracle conv lines w = None -> Forall (fun l => farewellLine l = false) lines.
Proof.
  induction lines as [|raw rest IH]; intros conv w H; [constructor|].
  cbn [convLoop] in H. destruct (decide (TrimSpace raw = "")) as [Hb|Hb].
  - constructor; [by apply farewellLine_blank|by eapply IH].
  - destruct (isFarewell (ToLower (TrimSpace raw))) eqn:Hf.
    + unfold callOpenAI in H. cbn in H. discriminate.
    + constructor; [done|]. unfold callOpenAI in H. cbn [fst snd] in H. by eapply IH.
Qed.

Lemma startConversation_ends oracle npcName w :
  startConversation oracle npcName w <> Crash
  /\ (forall w', startConversation oracle npcName w <> Halt w')
  /\ (startConversation oracle npcName w = Hang ->
      Forall (fun l => farewellLine l = false) (stdin w)).
Proof.
  unfold startConversation.
  destruct (ensureNpc_effect oracle npcName w) as (_ & _ & Hs & _ & _ & info & Hi & _).
  cbn zeta in *. rewrite Hi, Hs.
  destruct (convLoop oracle _ (stdin w) (ensureNpc oracle npcName w)) eqn:E.
  - split_and!; try done.
  - split_and!; try done. intros _. by eapply convLoop_hangs.
Qed.

(** X20: A turn of the game loop never stops on the lookup of an NPC that is
    not registered, and it ends - in the next turn or in the end of the
    program - unless it is a "talk to" turn whose input has no farewell
    line left. *)
Theorem turn_ends oracle entropy w :
  step oracle entropy w <> Crash
  /\ (step oracle entropy w = Hang ->
      HasPrefix (ToLower (nextCmd w)) "talk to " = true
      /\ Forall (fun l => farewellLine l = false) (tl (stdin w)))
  /\ (forall w', step oracle entropy w = Halt w' ->
        ToLower (nextCmd w) ∈ ["quit"; "exit"; "stop"]).
Proof.
  assert (H : forall f, step oracle entropy w = f ->
            match f with
            | Next _ => True
            | Halt _ => ToLower (nextCmd w) ∈ ["quit"; "exit"; "stop"]
            | Hang => HasPrefix (ToLower (nextCmd w)) "talk to " = true
                      /\ Forall (fun l => farewellLine l = false) (tl (stdin w))
            | Crash => False
            end).
  { unfold step, readLine, nextCmd.
    destruct (stdin w) as [|raw rest] eqn:Hin; [by intros f <-|].
    cbn [hd tl]. cbn zeta.
    destruct (decide (TrimSpace raw = "")); [by intros f <-|].
    destruct (HasPrefix (ToLower (TrimSpace raw)) "set prune");
      [destruct (_ && _); by intros f <-|].
    pose proof (autoPrune_frame oracle (set_stdin rest w)) as [_ Hs]. cbn in Hs.
    destruct (decide (_ ∈ ["quit"; "exit"; "stop"])); [by intros f <-|].
    destruct (decide (_ ∈ ["help"; "?"])); [by intros f <-|].
    destruct (decide (_ = "inventory")); [by intros f <-|].
    destruct (decide (_ = "stats")); [by intros f <-|].
    destruct (decide (_ = "journal")); [by intros f <-|].
    destruct (decide (_ = "save")); [by intros f <-|].
    destruct (decide (_ = "load")); [destruct (loadGame _) as [[h w2]|]; by intros f <-|].
    destruct (decide (_ = "hint")); [destruct (callOpenAI _ _ _); by intros f <-|].
    destruct (HasPrefix _ "roll"); [by intros f <-|].
    destruct (HasPrefix _ "map"); [by intros f <-|].
    destruct (decide (_ = "talk to")); [destruct (listNpcs _ _ _); by intros f <-|].
    destruct (HasPrefix _ "talk to ") eqn:Ht.
    { destruct (decide (_ = "")); [by intros f <-|].
      pose proof (startConversation_ends oracle
                    (TrimSpace (sliceFrom 8 (TrimSpace raw)))
                    (autoPrune oracle (set_stdin rest w))) as (Hc & Hh & Hg).
      intros f <-. destruct (startConversation _ _ _) eqn:E; try done.
      - by destruct (Hh w0).
      - split; [done|]. rewrite <- Hs. by apply Hg. }
    destruct (decide (_ ∈ ["look"; "observe"; "where"])); [by intros f <-|].
    destruct (firstPrefix _ ["examine "; "look at "; "inspect "]);
      [destruct (decide (_ = "")); by intros f <-|].
    match goal with |- forall f, match ?x with _ => _ end = _ -> _ => destruct x end;
      by intros f <-. }
  split_and!.
  - intros E. by apply H in E.
  - intros E. by apply H in E.
  - intros w' E. by apply H in E.
Qed.

Lemma turn_ends_witness :
  HasPrefix (ToLower (nextCmd (set_stdin ["talk to Selene"; "hello"] talkWorld))) "talk to "
  = true
  /\ Forall (fun l => farewellLine l = false)
            (tl (stdin (set_stdin ["talk to Selene"; "hello"] talkWorld))).
Proof.
  apply (proj1 (proj2 (turn_ends (cannedOracle []) (constEntropy 0)
                         (set_stdin ["talk to Selene"; "hello"] talkWorld)))).
  reflexivity.
Defined.
